(** * The message bus: handler registry, dispatcher, lifecycle and hooks

    The handler registry ([DefaultHandlerRegistry], the only production
    source of the bus core at hand) is embedded from its TypeScript source.
    The dispatcher, the transport and the service bus facade are exercised by
    the integration tests but their sources are not part of the tree at hand;
    they are modelled from the specification and marked as such. *)

From stdpp Require Import base option list gmap strings fin_maps.
From Stdlib Require Import Lia.

(** ** Handler registry *)

Module Registry.

#[local] Open Scope string_scope.

(** A handler is a function object.  The source compares handlers with
    [===], which on function objects is identity of reference; [handler_ref]
    stands for that reference and [handler_name] for the function's [name]
    property.  A reference has one name, so two handlers are the same object
    exactly when the records are equal. *)
Record Handler := mkHandler { handler_ref : positive; handler_name : string }.

#[global] Instance Handler_eq_dec : EqDecision Handler.
Proof. solve_decision. Defined.

(** [ClassConstructor<Message>]: the only thing the registry does with a
    message class is [new messageType().$name]. *)
Record ClassConstructor := mkClass { class_ref : positive; dollar_name : string }.

#[global] Instance ClassConstructor_eq_dec : EqDecision ClassConstructor.
Proof. solve_decision. Defined.

Definition MessageName := string.

(** [interface RegisteredHandlers] *)
Record RegisteredHandlers := mkRegistered
  { messageType : ClassConstructor; handlers : list Handler }.

(** What the logger receives. *)
Inductive LogEntry :=
| HandlerRegistered (messageTypeName : MessageName) (handlerName : string)
| NoHandlersRegistered (messageName : MessageName).

#[global] Instance LogEntry_eq_dec : EqDecision LogEntry.
Proof. solve_decision. Defined.

(** Errors a call can raise.  [HandlerAlreadyRegistered] is thrown by the
    source; [TypeError] is what the runtime raises when a method is called on
    [undefined]. *)
Inductive Exn :=
| HandlerAlreadyRegistered (handlerName : string)
| TypeError.

Inductive Completion (A : Type) :=
| Normal (a : A)
| Throw (e : Exn).
Arguments Normal {A} a.
Arguments Throw {A} e.

(** *** The object used as a map

    [registry] is an object literal [{}].  Its own properties are the finite
    map below; in addition, an object literal inherits the properties of
    [Object.prototype], which both [obj[key]] and [key in obj] consult. *)
Definition object_prototype_keys : list string :=
  [ "constructor"; "__defineGetter__"; "__defineSetter__"; "hasOwnProperty";
    "__lookupGetter__"; "__lookupSetter__"; "isPrototypeOf";
    "propertyIsEnumerable"; "toString"; "valueOf"; "__proto__";
    "toLocaleString" ].

(** The value of [this.registry[key]]. *)
Inductive PropValue :=
| Own (entry : RegisteredHandlers)   (* an entry stored by [register] *)
| Inherited                          (* a member of [Object.prototype] *)
| Missing.                           (* [undefined] *)

Definition prop_get (reg : gmap string RegisteredHandlers) (key : string) : PropValue :=
  match reg !! key with
  | Some entry => Own entry
  | None => if bool_decide (key ∈ object_prototype_keys) then Inherited else Missing
  end.

(** [key in this.registry] *)
Definition prop_in (key : string) (reg : gmap string RegisteredHandlers) : bool :=
  match prop_get reg key with
  | Missing => false
  | _ => true
  end.

(** Truthiness: objects and functions are truthy, [undefined] is not. *)
Definition truthy (v : PropValue) : bool :=
  match v with
  | Missing => false
  | _ => true
  end.

(** [class DefaultHandlerRegistry]: its two private fields. *)
Record DefaultHandlerRegistry := mkRegistry
  { registry : gmap string RegisteredHandlers;
    unhandledMessages : list MessageName }.

(** The registry object together with the logger it writes to
    ([getLogger()] is global to the process). *)
Record World := mkWorld
  { this : DefaultHandlerRegistry;
    logger : list LogEntry }.

(** [new DefaultHandlerRegistry()] with nothing logged yet. *)
Definition fresh : World :=
  {| this := {| registry := ∅; unhandledMessages := [] |}; logger := [] |}.

(** [this.registry = reg] *)
Definition set_registry (reg : gmap string RegisteredHandlers) (w : World) : World :=
  {| this := {| registry := reg; unhandledMessages := unhandledMessages (this w) |};
     logger := logger w |}.

(** [this.unhandledMessages.push(name)] *)
Definition push_unhandled (name : MessageName) (w : World) : World :=
  {| this := {| registry := registry (this w);
                unhandledMessages := unhandledMessages (this w) ++ [name] |};
     logger := logger w |}.

(** [getLogger().info(...)] and [getLogger().error(...)] *)
Definition log_entry (e : LogEntry) (w : World) : World :=
  {| this := this w; logger := logger w ++ [e] |}.

(** [handlers.some(registeredHandler => registeredHandler === handler)] *)
Definition some_is (handler : Handler) (hs : list Handler) : bool :=
  existsb (fun registeredHandler => bool_decide (registeredHandler = handler)) hs.

(** [register(messageType, handler)].  A throw leaves behind whatever was
    mutated before it, so the world is returned in both cases. *)
Definition register (mt : ClassConstructor) (handler : Handler) (w : World)
  : Completion unit * World :=
  let messageName := dollar_name mt in
  let w1 :=
    if negb (truthy (prop_get (registry (this w)) messageName))
    then set_registry (<[messageName := {| messageType := mt; handlers := [] |}]>
                         (registry (this w))) w
    else w in
  match prop_get (registry (this w1)) messageName with
  | Own entry =>
      let handlerNameAlreadyRegistered := some_is handler (handlers entry) in
      if handlerNameAlreadyRegistered
      then (Throw (HandlerAlreadyRegistered (handler_name handler)), w1)
      else
        let w2 :=
          set_registry (<[messageName := {| messageType := messageType entry;
                                            handlers := handlers entry ++ [handler] |}]>
                          (registry (this w1))) w1 in
        (Normal tt, log_entry (HandlerRegistered messageName (handler_name handler)) w2)
  | Inherited | Missing =>
      (* the value has no [handlers] property: [undefined.some(...)] *)
      (Throw TypeError, w1)
  end.

(** What [get] hands back: the handler array of an entry, a new empty array,
    or [undefined] when the property found is not an entry. *)
Inductive Handlers :=
| HandlerList (hs : list Handler)
| Undefined.

#[global] Instance Handlers_eq_dec : EqDecision Handlers.
Proof. solve_decision. Defined.

(** [get(messageName)] *)
Definition get (messageName : MessageName) (w : World) : Handlers * World :=
  if negb (prop_in messageName (registry (this w)))
  then
    if negb (existsb (fun m => bool_decide (m = messageName)) (unhandledMessages (this w)))
    then (HandlerList [],
          log_entry (NoHandlersRegistered messageName) (push_unhandled messageName w))
    else (HandlerList [], w)
  else
    match prop_get (registry (this w)) messageName with
    | Own entry => (HandlerList (handlers entry), w)
    | _ => (Undefined, w)
    end.

(** [getMessageNames()]: [Object.keys(this.registry)], the own keys.  The
    order in which the runtime enumerates them is not modelled. *)
Definition getMessageNames (w : World) : list string :=
  elements (dom (registry (this w))).

(** [getMessageConstructor(messageName)] *)
Definition getMessageConstructor (messageName : MessageName) (w : World)
  : option ClassConstructor :=
  if negb (prop_in messageName (registry (this w)))
  then None
  else match prop_get (registry (this w)) messageName with
       | Own entry => Some (messageType entry)
       | _ => None
       end.

(** [reset()]: [this.registry = {}] and nothing else. *)
Definition reset (w : World) : World :=
  set_registry ∅ w.

(** *** Sequences of calls

    The calls a client of the registry can make, and what a sequence of
    them makes of the registry. *)

Inductive Call :=
| CallRegister (mt : ClassConstructor) (handler : Handler)
| CallGet (messageName : MessageName)
| CallGetMessageNames
| CallGetMessageConstructor (messageName : MessageName)
| CallReset.

Definition exec (c : Call) (w : World) : World :=
  match c with
  | CallRegister mt handler => snd (register mt handler w)
  | CallGet messageName => snd (get messageName w)
  | CallGetMessageNames => w
  | CallGetMessageConstructor _ => w
  | CallReset => reset w
  end.

Definition run (cs : list Call) (w : World) : World :=
  fold_left (fun w c => exec c w) cs w.

(** A world the registry can be in: what some sequence of calls makes of a
    new registry. *)
Definition reachable (w : World) : Prop := ∃ cs, w = run cs fresh.

(** How often the unhandled-message diagnostic for [name] is in a log. *)
Definition diagnostics (name : MessageName) (log : list LogEntry) : nat :=
  length (filter (fun e => e = NoHandlersRegistered name) log).

(** [n] lookups of the same name in a row. *)
Definition repeat_get (n : nat) (name : MessageName) (w : World) : World :=
  Nat.iter n (fun w => snd (get name w)) w.

(** *** Invariants

    No entry and no remembered name is a name inherited from
    [Object.prototype]. *)
Definition wf (w : World) : Prop :=
  (∀ k e, registry (this w) !! k = Some e → k ∉ object_prototype_keys)
  ∧ (∀ k, k ∈ unhandledMessages (this w) → k ∉ object_prototype_keys).

(** The log holds the diagnostic of a name once if the name is remembered
    and not at all otherwise. *)
Definition once_per_name (w : World) : Prop :=
  ∀ name, diagnostics name (logger w)
          = if bool_decide (name ∈ unhandledMessages (this w)) then 1 else 0.

(** Every entry holds at least one handler and holds no handler twice. *)
Definition entries_ok (w : World) : Prop :=
  ∀ k e, registry (this w) !! k = Some e → NoDup (handlers e) ∧ handlers e ≠ [].

(** Whether a log entry is the [Handler registered] message of a name, and
    how many of these a log holds. *)
Definition is_registration_of (name : MessageName) (e : LogEntry) : bool :=
  match e with
  | HandlerRegistered messageTypeName _ => bool_decide (messageTypeName = name)
  | NoHandlersRegistered _ => false
  end.

Definition registrations_logged (name : MessageName) (log : list LogEntry) : nat :=
  length (filter (fun e => is_registration_of name e) log).

(** The handlers an entry holds, none without entry. *)
Definition handlers_at (name : string) (w : World) : list Handler :=
  match registry (this w) !! name with
  | Some entry => handlers entry
  | None => []
  end.

(** The log holds one [Handler registered] message per handler held. *)
Definition logged_per_handler (w : World) : Prop :=
  ∀ name, registrations_logged name (logger w) = length (handlers_at name w).

End Registry.

(** ** Transport and dispatcher *)

Module Dispatcher.

Import Registry.

(** Modelled from the spec: the message class definitions are not part of the
    sources at hand.  A message is a unit of data that carries its type name. *)
Record Message := mkMessage { name : MessageName; body : nat }.

#[global] Instance Message_eq_dec : EqDecision Message.
Proof. solve_decision. Defined.

(** Modelled from the spec: the in-flight handle a transport returns on claim
    (one received message plus the receipt the transport needs to delete or
    retry it); the transport sources are missing. *)
Record Handle := mkHandle { receipt : nat; message : Message }.

#[global] Instance Handle_eq_dec : EqDecision Handle.
Proof. solve_decision. Defined.

(** Modelled from the spec: the state of a queue-like transport (the in-memory
    queue used by the tests is missing): the messages waiting to be claimed,
    oldest first, the handles claimed and not yet resolved, and the next
    receipt to give out. *)
Record Transport := mkTransport
  { pending : list Message;
    claimed : list Handle;
    next_receipt : nat }.

(** Modelled from the spec: an empty transport (missing transport sources). *)
Definition empty_transport : Transport :=
  {| pending := []; claimed := []; next_receipt := 0 |}.

(** Modelled from the spec: the transport's [publish]/[send] operation
    (missing transport sources): the message is enqueued. *)
Definition enqueue (m : Message) (t : Transport) : Transport :=
  {| pending := pending t ++ [m]; claimed := claimed t; next_receipt := next_receipt t |}.

(** Modelled from the spec: the transport's [claimNext] (missing transport
    sources).  [None] stands for the call suspending because no message is
    available. *)
Definition claimNext (t : Transport) : option (Handle * Transport) :=
  match pending t with
  | [] => None
  | m :: rest =>
      let h := {| receipt := next_receipt t; message := m |} in
      Some (h, {| pending := rest;
                  claimed := claimed t ++ [h];
                  next_receipt := S (next_receipt t) |})
  end.

(** Modelled from the spec: the transport forgetting a handle, the common part
    of [delete] and [retry] (missing transport sources). *)
Definition release (h : Handle) (hs : list Handle) : list Handle :=
  filter (fun x => receipt x ≠ receipt h) hs.

(** Modelled from the spec: the transport's [delete(handle)], which
    acknowledges success (missing transport sources). *)
Definition delete (h : Handle) (t : Transport) : Transport :=
  {| pending := pending t;
     claimed := release h (claimed t);
     next_receipt := next_receipt t |}.

(** Modelled from the spec: the transport's [retry(handle)], which releases
    the message back for redelivery (missing transport sources). *)
Definition retry (h : Handle) (t : Transport) : Transport :=
  {| pending := pending t ++ [message h];
     claimed := release h (claimed t);
     next_receipt := next_receipt t |}.

(** Modelled from the spec: the transport's [depth], the number of messages it
    holds that are not yet deleted, waiting or claimed (missing transport
    sources). *)
Definition depth (t : Transport) : nat :=
  length (pending t) + length (claimed t).

(** Modelled from the spec: one worker slot of the dispatcher (the service bus
    sources are missing).  A slot is idle, or executes the handlers of the
    message it claimed one after the other: [current] is running and
    [remaining] are still to be invoked. *)
Inductive Slot :=
| Idle
| Executing (h : Handle) (current : Handler) (remaining : list Handler).

(** Modelled from the spec: whether a slot has a handler execution in flight
    (missing service bus sources). *)
Definition executing (s : Slot) : bool :=
  match s with
  | Idle => false
  | Executing _ _ _ => true
  end.

(** Modelled from the spec: the handle a slot owns (missing service bus
    sources). *)
Definition owned (s : Slot) : option Handle :=
  match s with
  | Idle => None
  | Executing h _ _ => Some h
  end.

(** Modelled from the spec: the dispatcher (missing service bus sources): the
    transport, the fixed pool of worker slots, and a record of what happened
    so far: every handler invocation started, in order, with the receipt of
    the message it was invoked for, the number of handler executions ended,
    the messages published, in order, and the numbers of messages deleted
    and returned. *)
Record Pool := mkPool
  { transport : Transport;
    slots : list Slot;
    invoked : list (nat * Handler);
    finished : nat;
    published : list Message;
    deleted : nat;
    returned : nat }.

(** Modelled from the spec: the two ways a handler can fail, a synchronous
    throw and a rejected asynchronous result (missing service bus sources). *)
Inductive Failure := ThrownSync | RejectedAsync.

(** Modelled from the spec: what can happen to the dispatcher (missing service
    bus sources): a message is published; slot [i] claims the next message and
    starts its first handler; the handler running in slot [i] completes; the
    handler running in slot [i] fails. *)
Inductive Action :=
| Publish (m : Message)
| Claim (i : nat)
| Complete (i : nat)
| Fail (i : nat) (k : Failure).

(** Modelled from the spec: a dispatcher with [n] idle slots on an empty
    transport (missing service bus sources). *)
Definition init (n : nat) : Pool :=
  {| transport := empty_transport; slots := replicate n Idle; invoked := [];
     finished := 0; published := []; deleted := 0; returned := 0 |}.

(** Modelled from the spec: the number of handler executions in flight
    (missing service bus sources). *)
Definition running (p : Pool) : nat :=
  length (filter (fun s => executing s) (slots p)).

(** Modelled from the spec: the number of handler invocations started so far
    (the [handleCount] of the concurrency test; missing service bus sources). *)
Definition started (p : Pool) : nat := length (invoked p).

(** Modelled from the spec: the handlers invoked for the message claimed under
    receipt [r], in the order of invocation (missing service bus sources). *)
Definition invoked_for (r : nat) (p : Pool) : list Handler :=
  (filter (fun x => fst x = r) (invoked p)).*2.

(** Modelled from the spec: a claim is possible, that is, a message waits and a
    slot is idle (missing service bus sources). *)
Definition claim_enabled (p : Pool) : bool :=
  match pending (transport p) with
  | [] => false
  | _ :: _ => existsb (fun s => negb (executing s)) (slots p)
  end.

(** Modelled from the spec: what the dispatcher becomes when a message is
    handed to the transport (missing service bus sources). *)
Definition accept (m : Message) (p : Pool) : Pool :=
  {| transport := enqueue m (transport p); slots := slots p;
     invoked := invoked p; finished := finished p;
     published := published p ++ [m]; deleted := deleted p;
     returned := returned p |}.

(** Modelled from the spec: the registry as the dispatcher reads it (missing
    service bus sources): the ordered list of handlers held under a message
    name, empty when the name has no entry. *)
Definition registered_handlers (w : World) (nm : MessageName) : list Handler :=
  match registry (this w) !! nm with
  | Some entry => handlers entry
  | None => []
  end.

Section WithRegistry.

(** The registry as the dispatcher sees it: the ordered list of handlers
    registered under a message name. *)
Variable lookup : MessageName -> list Handler.

(** Modelled from the spec: the claim, dispatch and resolve protocol of a slot
    (missing service bus sources).  A message without handlers is deleted at
    once; otherwise the handlers are invoked in the order of the registry's
    list, the next one when the previous one has completed; when the last one
    has completed the message is deleted; when one fails, by a throw or by a
    rejection alike, the message is returned for retry.  [None] means the
    action is not possible in this state. *)
Definition step (a : Action) (p : Pool) : option Pool :=
  match a with
  | Publish m => Some (accept m p)
  | Claim i =>
      match slots p !! i with
      | Some Idle =>
          match claimNext (transport p) with
          | Some (h, t) =>
              match lookup (name (message h)) with
              | [] =>
                  Some {| transport := delete h t; slots := slots p;
                          invoked := invoked p; finished := finished p;
                          published := published p; deleted := S (deleted p);
                          returned := returned p |}
              | first :: others =>
                  Some {| transport := t;
                          slots := <[i := Executing h first others]> (slots p);
                          invoked := invoked p ++ [(receipt h, first)];
                          finished := finished p;
                          published := published p; deleted := deleted p;
                          returned := returned p |}
              end
          | None => None
          end
      | _ => None
      end
  | Complete i =>
      match slots p !! i with
      | Some (Executing h _ []) =>
          Some {| transport := delete h (transport p);
                  slots := <[i := Idle]> (slots p);
                  invoked := invoked p; finished := S (finished p);
                  published := published p; deleted := S (deleted p);
                  returned := returned p |}
      | Some (Executing h _ (next :: others)) =>
          Some {| transport := transport p;
                  slots := <[i := Executing h next others]> (slots p);
                  invoked := invoked p ++ [(receipt h, next)];
                  finished := S (finished p);
                  published := published p; deleted := deleted p;
                  returned := returned p |}
      | _ => None
      end
  | Fail i _ =>
      match slots p !! i with
      | Some (Executing h _ _) =>
          Some {| transport := retry h (transport p);
                  slots := <[i := Idle]> (slots p);
                  invoked := invoked p; finished := S (finished p);
                  published := published p; deleted := deleted p;
                  returned := S (returned p) |}
      | _ => None
      end
  end.

(** Modelled from the spec: a sequence of actions, each possible when its turn
    comes (missing service bus sources). *)
Fixpoint steps (acts : list Action) (p : Pool) : option Pool :=
  match acts with
  | [] => Some p
  | a :: acts' =>
      match step a p with
      | Some p' => steps acts' p'
      | None => None
      end
  end.

(** Modelled from the spec: the states a dispatcher with [n] slots can be in
    (missing service bus sources). *)
Definition reachable (n : nat) (p : Pool) : Prop :=
  ∃ acts, steps acts (init n) = Some p.

(** What holds of every state of a dispatcher with [n] slots: the slots are
    [n]; every published message waits, is being handled or was deleted;
    every invocation started is running or has ended; receipts are given out
    once and each claimed handle is owned by one slot; and the handlers
    invoked for a message being handled, followed by those still to be
    invoked, are the registry's list for the message. *)
Record inv (n : nat) (p : Pool) : Prop := mkInv
  { inv_slots : length (slots p) = n;
    inv_messages :
      length (published p)
      = length (pending (transport p)) + running p + deleted p;
    inv_waiting : ∀ m, m ∈ pending (transport p) → m ∈ published p;
    inv_claimed : ∀ h, h ∈ claimed (transport p) → message h ∈ published p;
    inv_started : started p = running p + finished p;
    inv_fresh :
      Forall (fun h => receipt h < next_receipt (transport p)) (claimed (transport p));
    inv_nodup : NoDup (map receipt (claimed (transport p)));
    inv_owned :
      ∀ i h c r, slots p !! i = Some (Executing h c r) → h ∈ claimed (transport p);
    inv_distinct :
      ∀ i j hi ci ri hj cj rj,
        slots p !! i = Some (Executing hi ci ri) →
        slots p !! j = Some (Executing hj cj rj) →
        receipt hi = receipt hj → i = j;
    inv_log :
      Forall (fun x => x.1 < next_receipt (transport p)) (invoked p);
    inv_order :
      ∀ i h c r, slots p !! i = Some (Executing h c r) →
        ∃ before, lookup (name (message h)) = before ++ c :: r
                  ∧ invoked_for (receipt h) p = before ++ [c] }.

End WithRegistry.

End Dispatcher.

(** ** Service bus: lifecycle and hooks *)

Module ServiceBus.

Import Dispatcher.

(** Modelled from the spec: the lifecycle states of the bus (the [BusState]
    enumeration is imported by the tests, its source is missing). *)
Inductive BusState := Stopped | Starting | Started | Stopping.

#[global] Instance BusState_eq_dec : EqDecision BusState.
Proof. solve_decision. Defined.

(** Modelled from the spec: the events a listener can be registered for
    (missing service bus sources). *)
Inductive EventName := OnSend | OnPublish.

#[global] Instance EventName_eq_dec : EqDecision EventName.
Proof. solve_decision. Defined.

(** Modelled from the spec: a listener callable, identified by its reference
    (missing service bus sources). *)
Definition Listener := positive.

(** Modelled from the spec: the fatal configuration errors of the lifecycle
    (missing service bus sources). *)
Inductive Fault :=
| AlreadyStarted (found : BusState)
| NotStarted (found : BusState).

(** Modelled from the spec: the service bus facade (its source is missing):
    the lifecycle state, the configured concurrency budget, the dispatcher,
    the set of listeners of each event, and the record of every listener
    call made so far (what the mock callbacks of the tests observe). *)
Record Bus := mkBus
  { state : BusState;
    concurrency : nat;
    dispatcher : Pool;
    send_listeners : gset Listener;
    publish_listeners : gset Listener;
    calls : list (Listener * EventName * Message) }.

(** Modelled from the spec: a bus that was configured and not yet started
    (missing service bus sources). *)
Definition configured : Bus :=
  {| state := Stopped; concurrency := 0; dispatcher := init 0;
     send_listeners := ∅; publish_listeners := ∅; calls := [] |}.

(** Modelled from the spec: the bus with its lifecycle state set to [s]
    (missing service bus sources). *)
Definition with_state (s : BusState) (b : Bus) : Bus :=
  {| state := s; concurrency := concurrency b; dispatcher := dispatcher b;
     send_listeners := send_listeners b; publish_listeners := publish_listeners b;
     calls := calls b |}.

(** Modelled from the spec: [start(concurrencyBudget)] up to its first
    suspension (missing service bus sources): valid only in state [Stopped],
    where it moves the bus to [Starting]; a fatal error otherwise. *)
Definition start (n : nat) (b : Bus) : Fault + Bus :=
  match state b with
  | Stopped =>
      inr {| state := Starting; concurrency := n; dispatcher := dispatcher b;
             send_listeners := send_listeners b;
             publish_listeners := publish_listeners b; calls := calls b |}
  | s => inl (AlreadyStarted s)
  end.

(** Modelled from the spec: the rest of [start] (missing service bus
    sources): the worker slots are provisioned on the bus's transport and the
    bus moves to [Started]. *)
Definition start_resume (b : Bus) : Bus :=
  match state b with
  | Starting =>
      {| state := Started; concurrency := concurrency b;
         dispatcher :=
           {| transport := transport (dispatcher b);
              slots := replicate (concurrency b) Idle;
              invoked := invoked (dispatcher b);
              finished := finished (dispatcher b);
              published := published (dispatcher b);
              deleted := deleted (dispatcher b);
              returned := returned (dispatcher b) |};
         send_listeners := send_listeners b;
         publish_listeners := publish_listeners b; calls := calls b |}
  | _ => b
  end.

(** Modelled from the spec: [stop()] up to its first suspension (missing
    service bus sources): valid only in state [Started], where it moves the
    bus to [Stopping]; a fatal error otherwise. *)
Definition stop (b : Bus) : Fault + Bus :=
  match state b with
  | Started => inr (with_state Stopping b)
  | s => inl (NotStarted s)
  end.

(** Modelled from the spec: the rest of [stop] (missing service bus sources):
    once no handler execution is in flight the bus moves to [Stopped]; until
    then it stays in [Stopping]. *)
Definition stop_resume (b : Bus) : Bus :=
  match state b with
  | Stopping => if decide (running (dispatcher b) = 0) then with_state Stopped b else b
  | _ => b
  end.











End ServiceBus.

(** ** The integration tests' fixtures *)

Module Integration.

Import Registry Dispatcher ServiceBus.

#[local] Open Scope string_scope.

(** [TestEvent], imported by both test files; the name string of the class
    is defined outside the sources at hand. *)
Definition TestEvent : ClassConstructor :=
  {| class_ref := 1; dollar_name := "node-ts/bus-core/test-event" |}.

(** [const event = new TestEvent()] *)
Definition event : Message :=
  {| name := dollar_name TestEvent; body := 0 |}.

(** [const CONCURRENCY = 2] *)
Definition CONCURRENCY : nat := 2.

(** [const handler = async () => { handleCount++; await new Promise(...) }] *)
Definition handler : Handler :=
  {| handler_ref := 1; handler_name := "handler" |}.

(** The registry after [.withHandler(TestEvent, handler)]. *)
Definition configured_registry : World :=
  snd (register TestEvent handler fresh).

(** A message name nothing is registered under, and a name every object
    literal inherits a property for. *)
Definition unknown_name : MessageName := "node-ts/bus-core/unknown-event".
Definition inherited_name : MessageName := "toString".

(** The concurrency test up to its first expectation: three publishes, after
    which the two slots have claimed a message each. *)
Definition after_publishing : Pool :=
  default (init CONCURRENCY)
    (steps (registered_handlers configured_registry)
       [Publish event; Publish event; Claim 0; Claim 1; Publish event]
       (init CONCURRENCY)).

(** The retry test up to the handler's first call: one publish, claimed by
    the only slot. *)
Definition first_delivery : Pool :=
  default (init 1)
    (steps (registered_handlers configured_registry)
       [Publish event; Claim 0] (init 1)).

(** The same with a budget of three: four publishes, after which the three
    slots have claimed a message each. *)
Definition three_slots_busy : Pool :=
  default (init 3)
    (steps (registered_handlers configured_registry)
       [Publish event; Claim 2; Publish event; Publish event; Claim 0;
        Publish event; Claim 1]
       (init 3)).

(** [TestEvent2], imported by the service bus test; the name string of the
    class is defined outside the sources at hand. *)
Definition TestEvent2 : ClassConstructor :=
  {| class_ref := 2; dollar_name := "node-ts/bus-core/test-event-2" |}.

(** A message class whose [$name] is a name every object literal inherits a
    property for. *)
Definition InheritedNameEvent : ClassConstructor :=
  {| class_ref := 3; dollar_name := inherited_name |}.

End Integration.

(** * Proofs *)

(** ** Handler registry *)

Import Registry Integration.

Lemma prop_get_own reg k e : reg !! k = Some e → prop_get reg k = Own e.
Proof. intros H. unfold prop_get. by rewrite H. Qed.

Lemma prop_get_missing reg k :
  reg !! k = None → k ∉ object_prototype_keys → prop_get reg k = Missing.
Proof.
  intros H Hk. unfold prop_get. rewrite H.
  by rewrite bool_decide_eq_false_2.
Qed.

Lemma prop_get_inherited reg k :
  reg !! k = None → k ∈ object_prototype_keys → prop_get reg k = Inherited.
Proof.
  intros H Hk. unfold prop_get. rewrite H.
  by rewrite bool_decide_eq_true_2.
Qed.

Lemma prop_get_cases reg k :
  (∃ e, reg !! k = Some e ∧ (prop_get reg k = Own e))
  ∨ (reg !! k = None ∧ k ∈ object_prototype_keys ∧ prop_get reg k = Inherited)
  ∨ (reg !! k = None ∧ (k ∉ object_prototype_keys) ∧ prop_get reg k = Missing).
Proof.
  destruct (reg !! k) as [e|] eqn:E.
  - left. exists e. split; [done|]. by apply prop_get_own.
  - right. destruct (decide (k ∈ object_prototype_keys)) as [Hk|Hk].
    + left. repeat split; try done. by apply prop_get_inherited.
    + right. repeat split; try done. by apply prop_get_missing.
Qed.

Lemma some_is_true h hs : some_is h hs = true ↔ h ∈ hs.
Proof.
  unfold some_is. rewrite existsb_exists. split.
  - intros (x & Hin & Hx). apply bool_decide_eq_true in Hx. subst.
    by apply list_elem_of_In.
  - intros Hin. exists h. split; [by apply list_elem_of_In|].
    by apply bool_decide_eq_true.
Qed.

Lemma some_is_false h hs : some_is h hs = false ↔ h ∉ hs.
Proof.
  rewrite <- some_is_true. destruct (some_is h hs); split; congruence.
Qed.

(** The three ways a call of [register] can go. *)
Lemma register_fresh_name mt h w :
  registry (this w) !! dollar_name mt = None →
  dollar_name mt ∉ object_prototype_keys →
  register mt h w =
    (Normal tt,
     log_entry (HandlerRegistered (dollar_name mt) (handler_name h))
       (set_registry (<[dollar_name mt := {| messageType := mt; handlers := [h] |}]>
                        (registry (this w))) w)).
Proof.
  intros Hn Hk. unfold register.
  rewrite (prop_get_missing _ _ Hn Hk). cbn.
  rewrite (prop_get_own _ _ _ (lookup_insert_eq _ _ _)). cbn.
  by rewrite insert_insert_eq.
Qed.

Lemma register_known_name mt h w e :
  registry (this w) !! dollar_name mt = Some e →
  register mt h w =
    if some_is h (handlers e)
    then (Throw (HandlerAlreadyRegistered (handler_name h)), w)
    else (Normal tt,
          log_entry (HandlerRegistered (dollar_name mt) (handler_name h))
            (set_registry (<[dollar_name mt := {| messageType := messageType e;
                                                  handlers := handlers e ++ [h] |}]>
                             (registry (this w))) w)).
Proof.
  intros He. unfold register.
  rewrite (prop_get_own _ _ _ He). cbn.
  by rewrite (prop_get_own _ _ _ He).
Qed.

Lemma register_inherited_name mt h w :
  registry (this w) !! dollar_name mt = None →
  dollar_name mt ∈ object_prototype_keys →
  register mt h w = (Throw TypeError, w).
Proof.
  intros Hn Hk. unfold register.
  rewrite (prop_get_inherited _ _ Hn Hk). cbn.
  by rewrite (prop_get_inherited _ _ Hn Hk).
Qed.


Lemma register_cases mt h w :
  (∃ e, registry (this w) !! dollar_name mt = Some e ∧ h ∈ handlers e
        ∧ (register mt h w = (Throw (HandlerAlreadyRegistered (handler_name h)), w)))
  ∨ (registry (this w) !! dollar_name mt = None
     ∧ dollar_name mt ∈ object_prototype_keys
     ∧ (register mt h w = (Throw TypeError, w)))
  ∨ (∃ mt0 hs,
        (registry (this w) !! dollar_name mt = Some {| messageType := mt0; handlers := hs |}
         ∨ (registry (this w) !! dollar_name mt = None
            ∧ (dollar_name mt ∉ object_prototype_keys) ∧ mt0 = mt ∧ hs = []))
        ∧ (h ∉ hs)
        ∧ (register mt h w =
            (Normal tt,
             log_entry (HandlerRegistered (dollar_name mt) (handler_name h))
               (set_registry (<[dollar_name mt := {| messageType := mt0;
                                                     handlers := hs ++ [h] |}]>
                                (registry (this w))) w)))).
Proof.
  destruct (prop_get_cases (registry (this w)) (dollar_name mt))
    as [(e & He & _)|[(Hn & Hk & _)|(Hn & Hk & _)]].
  - rewrite (register_known_name _ _ _ _ He).
    destruct (some_is h (handlers e)) eqn:Hs.
    + left. exists e. by rewrite some_is_true in Hs.
    + right. right. exists (messageType e), (handlers e).
      rewrite some_is_false in Hs. split; [left; by destruct e|done].
  - right. left. by rewrite register_inherited_name.
  - right. right. exists mt, []. rewrite register_fresh_name by done.
    split; [by right|]. split; [apply not_elem_of_nil|done].
Qed.

Lemma wf_fresh : wf fresh.
Proof.
  split.
  - intros k e H. cbn in H. by rewrite lookup_empty in H.
  - intros k H. cbn in H. by apply not_elem_of_nil in H.
Qed.

Lemma wf_register mt h w : wf w → wf (snd (register mt h w)).
Proof.
  intros [Hreg Hun].
  destruct (register_cases mt h w)
    as [(e & _ & _ & ->)|[(_ & _ & ->)|(mt0 & hs & Hc & _ & ->)]]; try done.
  split; [|done].
  intros k e. cbn. destruct (decide (k = dollar_name mt)) as [->|Hne].
  - intros _. destruct Hc as [Hc|(_ & Hk & _)]; [by eapply Hreg|done].
  - rewrite lookup_insert_ne by done. apply Hreg.
Qed.

Lemma get_registry name w : registry (this (snd (get name w))) = registry (this w).
Proof.
  unfold get. destruct (negb _).
  - by destruct (negb _).
  - by destruct (prop_get _ _).
Qed.

Lemma wf_get name w : wf w → wf (snd (get name w)).
Proof.
  intros [Hreg Hun]. split.
  - intros k e. rewrite get_registry. apply Hreg.
  - unfold get, prop_in.
    destruct (prop_get_cases (registry (this w)) name)
      as [(e & _ & ->)|[(_ & _ & ->)|(_ & Hk & ->)]]; cbn; try done.
    destruct (negb _); [|done]. cbn. intros k.
    rewrite elem_of_app, list_elem_of_singleton. intros [?| ->]; [by apply Hun|done].
Qed.

Lemma wf_exec c w : wf w → wf (exec c w).
Proof.
  intros Hwf. destruct c as [mt h|name| |name|]; cbn [exec]; try done.
  - by apply wf_register.
  - by apply wf_get.
  - destruct Hwf as [_ Hun]. split; [|done].
    intros k e. cbn. by rewrite lookup_empty.
Qed.

Lemma wf_run cs w : wf w → wf (run cs w).
Proof.
  revert w. induction cs as [|c cs IH]; intros w Hwf; [done|].
  cbn. apply IH. by apply wf_exec.
Qed.

Lemma wf_reachable w : reachable w → wf w.
Proof. intros [cs ->]. apply wf_run, wf_fresh. Qed.

Lemma get_own name w e :
  registry (this w) !! name = Some e → get name w = (HandlerList (handlers e), w).
Proof.
  intros He. unfold get, prop_in. by rewrite (prop_get_own _ _ _ He).
Qed.

Lemma get_inherited name w :
  registry (this w) !! name = None → name ∈ object_prototype_keys →
  get name w = (Undefined, w).
Proof.
  intros Hn Hk. unfold get, prop_in. by rewrite (prop_get_inherited _ _ Hn Hk).
Qed.

Lemma remembered_true name (l : list MessageName) :
  existsb (fun m => bool_decide (m = name)) l = true ↔ name ∈ l.
Proof.
  rewrite existsb_exists. split.
  - intros (x & Hin & Hx). apply bool_decide_eq_true in Hx. subst.
    by apply list_elem_of_In.
  - intros Hin. exists name. split; [by apply list_elem_of_In|].
    by apply bool_decide_eq_true.
Qed.

Lemma get_missing_remembered name w :
  registry (this w) !! name = None → name ∉ object_prototype_keys →
  name ∈ unhandledMessages (this w) →
  get name w = (HandlerList [], w).
Proof.
  intros Hn Hk Hu. unfold get, prop_in. rewrite (prop_get_missing _ _ Hn Hk). cbn.
  apply remembered_true in Hu. by rewrite Hu.
Qed.

Lemma get_missing_first name w :
  registry (this w) !! name = None → name ∉ object_prototype_keys →
  name ∉ unhandledMessages (this w) →
  get name w =
    (HandlerList [], log_entry (NoHandlersRegistered name) (push_unhandled name w)).
Proof.
  intros Hn Hk Hu. unfold get, prop_in. rewrite (prop_get_missing _ _ Hn Hk). cbn.
  destruct (existsb _ _) eqn:E; [|done].
  apply remembered_true in E. done.
Qed.


Lemma diagnostics_snoc name log e :
  diagnostics name (log ++ [e])
  = diagnostics name log + (if decide (e = NoHandlersRegistered name) then 1 else 0).
Proof.
  unfold diagnostics. rewrite filter_app, length_app. f_equal.
  destruct (decide (e = NoHandlersRegistered name)) as [->|Hne].
  - by rewrite filter_cons_True.
  - by rewrite filter_cons_False.
Qed.

Lemma once_per_name_fresh : once_per_name fresh.
Proof. intros name. cbn. rewrite bool_decide_eq_false_2; [done|apply not_elem_of_nil]. Qed.

Lemma once_per_name_register mt h w :
  once_per_name w → once_per_name (snd (register mt h w)).
Proof.
  intros Hw.
  destruct (register_cases mt h w)
    as [(e & _ & _ & ->)|[(_ & _ & ->)|(mt0 & hs & _ & _ & ->)]]; try done.
  intros name. cbn [snd log_entry set_registry logger this unhandledMessages].
  rewrite diagnostics_snoc, (Hw name).
  rewrite decide_False by done. lia.
Qed.

Lemma once_per_name_get name w :
  once_per_name w → once_per_name (snd (get name w)).
Proof.
  intros Hw. unfold get. destruct (negb (prop_in _ _)); [|by destruct (prop_get _ _)].
  destruct (existsb _ _) eqn:E; [done|]. cbn.
  assert (name ∉ unhandledMessages (this w)) as Hu.
  { intros Hin. apply remembered_true in Hin. congruence. }
  intros name'. cbn [snd log_entry push_unhandled logger this unhandledMessages].
  rewrite diagnostics_snoc, (Hw name').
  destruct (decide (name' = name)) as [->|Hne].
  - rewrite decide_True by done.
    rewrite bool_decide_eq_false_2 by done.
    rewrite bool_decide_eq_true_2; [done|].
    apply elem_of_app. right. by apply list_elem_of_singleton.
  - rewrite decide_False by congruence.
    rewrite Nat.add_0_r.
    rewrite (bool_decide_ext (name' ∈ (unhandledMessages (this w) ++ [name])%list)
               (name' ∈ unhandledMessages (this w))); [done|].
    rewrite elem_of_app, list_elem_of_singleton. tauto.
Qed.

Lemma once_per_name_exec c w : once_per_name w → once_per_name (exec c w).
Proof.
  intros Hw. destruct c as [mt h|name| |name|]; cbn [exec]; try done.
  - by apply once_per_name_register.
  - by apply once_per_name_get.
Qed.

Lemma once_per_name_reachable w : reachable w → once_per_name w.
Proof.
  intros [cs ->]. generalize once_per_name_fresh. generalize fresh.
  induction cs as [|c cs IH]; intros w Hw; [done|].
  cbn. apply IH. by apply once_per_name_exec.
Qed.

Lemma repeat_get_fixed n name w :
  snd (get name w) = w → repeat_get n name w = w.
Proof.
  intros H. induction n as [|n IH]; [done|].
  unfold repeat_get in *. rewrite Nat.iter_succ. by rewrite IH.
Qed.

Lemma repeat_get_S n name w :
  repeat_get (S n) name w = repeat_get n name (snd (get name w)).
Proof. unfold repeat_get. by rewrite Nat.iter_succ_r. Qed.

(** Outside the names inherited from [Object.prototype], a lookup of a name
    without entry gives the empty list, and any number of lookups, at least
    one, leaves exactly one diagnostic for the name in the log. *)
Lemma get_unregistered_once (w : World) (name : MessageName) (n : nat) :
  reachable w →
  name ∉ object_prototype_keys →
  registry (this w) !! name = None →
  fst (get name w) = HandlerList []
  ∧ diagnostics name (logger (repeat_get (S n) name w)) = 1.
Proof.
  intros Hr Hk Hn.
  assert (∀ w', once_per_name w' → registry (this w') !! name = None →
                name ∈ unhandledMessages (this w') →
                diagnostics name (logger (repeat_get n name w')) = 1) as Hrest.
  { intros w' Hw' Hn' Hu. rewrite repeat_get_fixed.
    - rewrite (Hw' name). by rewrite bool_decide_eq_true_2.
    - by rewrite get_missing_remembered. }
  rewrite repeat_get_S.
  destruct (decide (name ∈ unhandledMessages (this w))) as [Hu|Hu].
  - rewrite get_missing_remembered by done. split; [done|].
    apply Hrest; [by apply once_per_name_reachable|done..].
  - rewrite get_missing_first by done. split; [done|].
    apply Hrest.
    + rewrite <- (get_missing_first name w) by done.
      by apply once_per_name_get, once_per_name_reachable.
    + done.
    + cbn. apply elem_of_app. right. by apply list_elem_of_singleton.
Qed.

(** Claim C3.  Once [register(messageType, handler)] has returned, the same
    call again raises [HandlerAlreadyRegistered], at the call, and leaves the
    registry as it was; a handler that is not yet in the list of the name,
    registered under the same message type name, is accepted and appended to
    the end of the list that [get] returns. *)
Theorem register_same_pair_twice_raises
    (w w1 : World) (mt : ClassConstructor) (h : Handler) :
  register mt h w = (Normal tt, w1) →
  register mt h w1 = (Throw (HandlerAlreadyRegistered (handler_name h)), w1)
  ∧ ∀ mt' h' hs,
      dollar_name mt' = dollar_name mt →
      fst (get (dollar_name mt) w1) = HandlerList hs →
      h' ∉ hs →
      ∃ w2, register mt' h' w1 = (Normal tt, w2)
            ∧ fst (get (dollar_name mt) w2) = HandlerList (hs ++ [h']).
Proof.
  intros H1.
  destruct (register_cases mt h w)
    as [(e & _ & _ & E)|[(_ & _ & E)|(mt0 & hs0 & _ & _ & E)]];
    rewrite E in H1; try discriminate.
  injection H1 as <-.
  set (e1 := {| messageType := mt0; handlers := hs0 ++ [h] |}).
  set (w1 := log_entry _ _).
  assert (registry (this w1) !! dollar_name mt = Some e1) as He1
    by (cbn; apply lookup_insert_eq).
  split.
  - rewrite (register_known_name _ _ _ _ He1).
    replace (some_is h (handlers e1)) with true; [done|].
    symmetry. apply some_is_true. cbn. apply elem_of_app. right.
    by apply list_elem_of_singleton.
  - intros mt' h' hs Hname Hget Hnot.
    rewrite (get_own _ _ _ He1) in Hget. cbn in Hget. injection Hget as <-.
    rewrite <- Hname in He1 |- *.
    rewrite (register_known_name _ _ _ _ He1).
    apply some_is_false in Hnot. cbn [handlers e1]. rewrite Hnot.
    eexists. split; [done|].
    erewrite get_own; last by (cbn; apply lookup_insert_eq). done.
Qed.

Lemma register_same_pair_twice_raises_witness :
  register TestEvent handler fresh = (Normal tt, configured_registry)
  ∧ register TestEvent handler configured_registry
    = (Throw (HandlerAlreadyRegistered (handler_name handler)), configured_registry).
Proof.
  split; [reflexivity|].
  exact (proj1 (register_same_pair_twice_raises fresh configured_registry
                  TestEvent handler eq_refl)).
Defined.

(** Claim C4, where the code departs from it.  For a name that every object
    literal inherits a property for ([toString], [constructor], ...), the
    registry never has an entry, yet [messageName in this.registry] holds:
    [get] gives back [undefined] instead of the empty list and no number of
    lookups ever emits the unhandled-message diagnostic. *)
Theorem get_inherited_name_gives_no_list (w : World) (name : MessageName) (n : nat) :
  reachable w →
  name ∈ object_prototype_keys →
  registry (this w) !! name = None
  ∧ fst (get name w) = Undefined
  ∧ diagnostics name (logger (repeat_get n name w)) = 0.
Proof.
  intros Hr Hk.
  assert (registry (this w) !! name = None) as Hn.
  { destruct (registry (this w) !! name) as [e|] eqn:E; [|done].
    by destruct (proj1 (wf_reachable _ Hr) _ _ E). }
  split; [done|]. rewrite (get_inherited _ _ Hn Hk). split; [done|].
  rewrite repeat_get_fixed by (by rewrite get_inherited).
  rewrite (once_per_name_reachable _ Hr name).
  destruct (bool_decide _) eqn:E; [|done].
  apply bool_decide_eq_true in E.
  by destruct (proj2 (wf_reachable _ Hr) _ E).
Qed.

Lemma get_inherited_name_gives_no_list_witness :
  inherited_name ∈ object_prototype_keys
  ∧ fst (get inherited_name fresh) = Undefined
  ∧ diagnostics inherited_name (logger (repeat_get 3 inherited_name fresh)) = 0.
Proof.
  assert (inherited_name ∈ object_prototype_keys) as Hk by compute_done.
  split; [done|].
  apply (get_inherited_name_gives_no_list fresh inherited_name 3); [|done].
  by exists [].
Defined.

(** Claim C5 fails: a name is looked up (the diagnostic is emitted once), the
    registry is reset, and the name is looked up again.  The lookup finds no
    handlers, the name is still remembered after [reset()], and the log is
    what it was before the reset, with the diagnostic in it once: it was
    not emitted again. *)
Lemma reset_clears_unhandled_memory_counterexample :
  let before := snd (get unknown_name fresh) in
  let after := snd (get unknown_name (reset before)) in
  diagnostics unknown_name (logger before) = 1
  ∧ fst (get unknown_name (reset before)) = HandlerList []
  ∧ unhandledMessages (this (reset before)) = [unknown_name]
  ∧ logger after = logger before
  ∧ diagnostics unknown_name (logger after) = 1.
Proof. by vm_compute. Qed.

(** Claim C5, amended.  [reset()] clears the registrations and leaves the
    unhandled-name memory as it is: after [reset()], a lookup of a name
    that had triggered the diagnostic before the reset finds no handlers
    and does not emit the diagnostic again. *)
Theorem reset_keeps_unhandled_memory (w : World) (name : MessageName) :
  reachable w →
  0 < diagnostics name (logger w) →
  registry (this (reset w)) = ∅
  ∧ unhandledMessages (this (reset w)) = unhandledMessages (this w)
  ∧ get name (reset w) = (HandlerList [], reset w)
  ∧ diagnostics name (logger (snd (get name (reset w)))) = diagnostics name (logger w).
Proof.
  intros Hr Hd.
  assert (name ∈ unhandledMessages (this w)) as Hu.
  { rewrite (once_per_name_reachable _ Hr name) in Hd.
    destruct (bool_decide _) eqn:E; [|lia]. by apply bool_decide_eq_true in E. }
  assert (get name (reset w) = (HandlerList [], reset w)) as Hget.
  { apply get_missing_remembered; cbn; [apply lookup_empty| |done].
    by apply (proj2 (wf_reachable _ Hr)). }
  rewrite Hget. done.
Qed.

Lemma reset_keeps_unhandled_memory_witness :
  0 < diagnostics unknown_name (logger (snd (get unknown_name fresh)))
  ∧ get unknown_name (reset (snd (get unknown_name fresh)))
    = (HandlerList [], reset (snd (get unknown_name fresh))).
Proof.
  assert (0 < diagnostics unknown_name (logger (snd (get unknown_name fresh))))
    as Hd by (vm_compute; lia).
  split; [done|].
  apply (reset_keeps_unhandled_memory (snd (get unknown_name fresh)) unknown_name);
    [|done].
  by exists [CallGet unknown_name].
Defined.

(** Claim C6.  For a name that was registered, whatever calls followed,
    after [reset()] a lookup of the name gives the empty list and
    [getMessageNames()] gives no name. *)
Theorem reset_forgets_registrations
    (w w1 : World) (mt : ClassConstructor) (h : Handler) (later : list Call) :
  reachable w →
  register mt h w = (Normal tt, w1) →
  fst (get (dollar_name mt) (reset (run later w1))) = HandlerList []
  ∧ getMessageNames (reset (run later w1)) = [].
Proof.
  intros Hr H1.
  assert (wf w1) as [Hreg _].
  { replace w1 with (snd (register mt h w)) by (by rewrite H1).
    by apply wf_register, wf_reachable. }
  assert (dollar_name mt ∉ object_prototype_keys) as Hk.
  { destruct (register_cases mt h w)
      as [(e & _ & _ & E)|[(_ & _ & E)|(mt0 & hs0 & _ & _ & E)]];
      rewrite E in H1; try discriminate.
    injection H1 as <-. eapply Hreg. cbn. apply lookup_insert_eq. }
  split.
  - unfold get, prop_in. cbn [reset set_registry this registry].
    rewrite prop_get_missing; [|apply lookup_empty|done]. cbn.
    by destruct (negb _).
  - unfold getMessageNames. cbn. by rewrite dom_empty_L, elements_empty.
Qed.

Lemma reset_forgets_registrations_witness :
  register TestEvent handler fresh = (Normal tt, configured_registry)
  ∧ fst (get (dollar_name TestEvent)
           (reset (run [CallGet unknown_name; CallGetMessageNames]
                     configured_registry)))
    = HandlerList []
  ∧ getMessageNames
      (reset (run [CallGet unknown_name; CallGetMessageNames] configured_registry))
    = [].
Proof.
  split; [reflexivity|].
  apply (reset_forgets_registrations fresh configured_registry TestEvent handler
           [CallGet unknown_name; CallGetMessageNames]); [|reflexivity].
  by exists [].
Defined.

(** Claim C10.  When [register] raises [HandlerAlreadyRegistered] the
    registry object and the log are exactly what they were before the call;
    the error carries the handler's name, and the name of the message type
    already had an entry, which holds the handler. *)
Theorem register_failure_leaves_registry_unchanged
    (w w' : World) (mt : ClassConstructor) (h : Handler) (n : string) :
  register mt h w = (Throw (HandlerAlreadyRegistered n), w') →
  w' = w
  ∧ n = handler_name h
  ∧ ∃ e, registry (this w) !! dollar_name mt = Some e ∧ h ∈ handlers e.
Proof.
  intros H.
  destruct (register_cases mt h w)
    as [(e & He & Hin & E)|[(_ & _ & E)|(mt0 & hs0 & _ & _ & E)]];
    rewrite E in H; try discriminate.
  injection H as <- <-. split; [done|]. split; [done|]. by exists e.
Qed.

Lemma register_failure_leaves_registry_unchanged_witness :
  register TestEvent handler configured_registry
    = (Throw (HandlerAlreadyRegistered (handler_name handler)), configured_registry)
  ∧ ∃ e, registry (this configured_registry) !! dollar_name TestEvent = Some e
         ∧ handler ∈ handlers e.
Proof.
  split; [reflexivity|].
  exact (proj2 (proj2 (register_failure_leaves_registry_unchanged
                         configured_registry configured_registry TestEvent handler
                         (handler_name handler) eq_refl))).
Defined.

Lemma register_appends (w w1 : World) (mt : ClassConstructor) (h : Handler) :
  register mt h w = (Normal tt, w1) →
  ∃ hs, fst (get (dollar_name mt) w) = HandlerList hs
        ∧ fst (get (dollar_name mt) w1) = HandlerList (hs ++ [h])
        ∧ ∀ other, other ≠ dollar_name mt → fst (get other w1) = fst (get other w).
Proof.
  intros H1.
  destruct (register_cases mt h w)
    as [(e & _ & _ & E)|[(_ & _ & E)|(mt0 & hs0 & Hc & _ & E)]];
    rewrite E in H1; try discriminate.
  injection H1 as <-. exists hs0. split; [|split].
  - destruct Hc as [He|(Hn & Hk & _ & ->)].
    + by rewrite (get_own _ _ _ He).
    + unfold get, prop_in. rewrite (prop_get_missing _ _ Hn Hk). cbn.
      by destruct (negb _).
  - erewrite get_own; last by (cbn; apply lookup_insert_eq). done.
  - intros other Hne. unfold get, prop_in, prop_get. cbn.
    rewrite lookup_insert_ne by done.
    destruct (registry (this w) !! other); [done|].
    destruct (bool_decide (other ∈ object_prototype_keys)); [done|]. cbn.
    by destruct (negb _).
Qed.



(** ** Further properties of the registry *)

Lemma reachable_inv (P : World → Prop) :
  P fresh → (∀ c w, P w → P (exec c w)) → ∀ w, reachable w → P w.
Proof.
  intros H0 Hstep w [cs ->]. revert H0. generalize fresh.
  induction cs as [|c cs IH]; intros w Hw; [done|].
  cbn. apply IH. by apply Hstep.
Qed.

Lemma run_cons c cs w : run (c :: cs) w = run cs (exec c w).
Proof. done. Qed.

(** The answer of [get] depends on the registrations only. *)
Lemma get_answer_local (name : string) w w' :
  registry (this w) = registry (this w') → fst (get name w) = fst (get name w').
Proof.
  intros E. unfold get, prop_in. rewrite E.
  destruct (prop_get (registry (this w')) name); cbn; try done.
  by do 2 destruct (negb _).
Qed.

Lemma handlers_at_own (name : string) w e :
  registry (this w) !! name = Some e → handlers_at name w = handlers e.
Proof. intros He. unfold handlers_at. by rewrite He. Qed.

Lemma handlers_at_none (name : string) w :
  registry (this w) !! name = None → handlers_at name w = [].
Proof. intros Hn. unfold handlers_at. by rewrite Hn. Qed.

Lemma handlers_at_local (name : string) w w' :
  registry (this w') !! name = registry (this w) !! name →
  handlers_at name w' = handlers_at name w.
Proof. intros E. unfold handlers_at. by rewrite E. Qed.

Lemma get_as_handlers_at (name : string) w :
  name ∉ object_prototype_keys ∨ is_Some (registry (this w) !! name) →
  fst (get name w) = HandlerList (handlers_at name w).
Proof.
  intros H. unfold handlers_at.
  destruct (prop_get_cases (registry (this w)) name)
    as [(e & He & _)|[(Hn & Hk & _)|(Hn & Hk & _)]].
  - rewrite (get_own _ _ _ He). by rewrite He.
  - destruct H as [?|[e He]]; [done|]. by pose proof (eq_trans (eq_sym Hn) He).
  - rewrite Hn. unfold get, prop_in. rewrite (prop_get_missing _ _ Hn Hk). cbn.
    by destruct (negb _).
Qed.

Lemma entries_ok_exec c w : entries_ok w → entries_ok (exec c w).
Proof.
  intros Hw. destruct c as [mt h|name| |name|]; cbn [exec].
  - destruct (register_cases mt h w)
      as [(e & _ & _ & ->)|[(_ & _ & ->)|(mt0 & hs & Hc & Hnot & ->)]]; try done.
    intros k e. cbn. destruct (decide (k = dollar_name mt)) as [->|Hne].
    + rewrite lookup_insert_eq. intros [= <-]. cbn. split.
      * apply NoDup_app. split; [|split].
        -- destruct Hc as [Hc|(_ & _ & _ & ->)]; [|apply NoDup_nil_2].
           by destruct (Hw _ _ Hc).
        -- intros x Hx Hx'. apply list_elem_of_singleton in Hx'. by subst.
        -- apply NoDup_singleton.
      * by destruct hs.
    + rewrite lookup_insert_ne by done. apply Hw.
  - intros k e. rewrite get_registry. apply Hw.
  - done.
  - done.
  - intros k e. cbn. by rewrite lookup_empty.
Qed.

Lemma entries_ok_reachable w : reachable w → entries_ok w.
Proof.
  apply reachable_inv; [|apply entries_ok_exec].
  intros k e. cbn. by rewrite lookup_empty.
Qed.

Lemma elem_of_getMessageNames (name : string) w :
  name ∈ getMessageNames w ↔ is_Some (registry (this w) !! name).
Proof. unfold getMessageNames. by rewrite elem_of_elements, elem_of_dom. Qed.

(** Property X1.  In a registry reached by any calls, the list [get] returns
    for a name holds no handler twice. *)
Theorem registered_handlers_are_distinct
    (w : World) (name : string) (hs : list Handler) :
  reachable w → fst (get name w) = HandlerList hs → NoDup hs.
Proof.
  intros Hr Hget.
  destruct (prop_get_cases (registry (this w)) name)
    as [(e & He & _)|[(Hn & Hk & _)|(Hn & Hk & _)]].
  - rewrite (get_own _ _ _ He) in Hget. injection Hget as <-.
    by destruct (entries_ok_reachable _ Hr _ _ He).
  - by rewrite (get_inherited _ _ Hn Hk) in Hget.
  - rewrite get_as_handlers_at in Hget by (by left).
    rewrite (handlers_at_none _ _ Hn) in Hget. injection Hget as <-.
    apply NoDup_nil_2.
Qed.

(** Property X2.  In a registry reached by any calls, the names
    [getMessageNames] lists are exactly the names for which [get] returns a
    list with at least one handler: no entry is ever left without handlers. *)
Theorem listed_names_have_handlers (w : World) (name : string) :
  reachable w →
  (name ∈ getMessageNames w ↔ ∃ h hs, fst (get name w) = HandlerList (h :: hs)).
Proof.
  intros Hr. rewrite elem_of_getMessageNames. split.
  - intros [e He]. rewrite (get_own _ _ _ He).
    destruct (entries_ok_reachable _ Hr _ _ He) as [_ Hne].
    destruct (handlers e) as [|h hs]; [done|]. by exists h, hs.
  - intros (h & hs & Hget).
    destruct (prop_get_cases (registry (this w)) name)
      as [(e & He & _)|[(Hn & Hk & _)|(Hn & Hk & _)]].
    + by exists e.
    + by rewrite (get_inherited _ _ Hn Hk) in Hget.
    + rewrite get_as_handlers_at in Hget by (by left).
      by rewrite (handlers_at_none _ _ Hn) in Hget.
Qed.

Lemma getMessageConstructor_own (name : string) w e :
  registry (this w) !! name = Some e →
  getMessageConstructor name w = Some (messageType e).
Proof.
  intros He. unfold getMessageConstructor, prop_in.
  by rewrite (prop_get_own _ _ _ He).
Qed.

Lemma getMessageConstructor_none (name : string) w :
  registry (this w) !! name = None → getMessageConstructor name w = None.
Proof.
  intros Hn. unfold getMessageConstructor, prop_in, prop_get. rewrite Hn.
  by destruct (bool_decide _).
Qed.

(** Property X3.  After a [register] call that returns,
    [getMessageConstructor] gives for the name the class that was recorded
    before if there was one, and the class just registered otherwise: the
    class of the first registration under a name stays; the constructors of
    the other names are left alone. *)
Theorem constructor_is_that_of_first_registration
    (w w1 : World) (mt : ClassConstructor) (h : Handler) :
  register mt h w = (Normal tt, w1) →
  getMessageConstructor (dollar_name mt) w1
  = Some (default mt (getMessageConstructor (dollar_name mt) w))
  ∧ ∀ other, other ≠ dollar_name mt →
             getMessageConstructor other w1 = getMessageConstructor other w.
Proof.
  intros H1.
  destruct (register_cases mt h w)
    as [(e & _ & _ & E)|[(_ & _ & E)|(mt0 & hs0 & Hc & _ & E)]];
    rewrite E in H1; try discriminate.
  injection H1 as <-. split.
  - erewrite getMessageConstructor_own; [|cbn; apply lookup_insert_eq]. cbn.
    destruct Hc as [He|(Hn & _ & -> & _)].
    + by rewrite (getMessageConstructor_own _ _ _ He).
    + by rewrite (getMessageConstructor_none _ _ Hn).
  - intros other Hne. unfold getMessageConstructor, prop_in, prop_get. cbn.
    by rewrite lookup_insert_ne.
Qed.

(** Property X4.  [getMessageNames] lists exactly the names for which
    [getMessageConstructor] gives a constructor. *)
Theorem names_listed_are_those_with_constructor (w : World) (name : string) :
  name ∈ getMessageNames w ↔ is_Some (getMessageConstructor name w).
Proof.
  rewrite elem_of_getMessageNames.
  destruct (registry (this w) !! name) as [e|] eqn:E.
  - rewrite (getMessageConstructor_own _ _ _ E). split; by eexists.
  - rewrite (getMessageConstructor_none _ _ E). split; intros [? ?]; done.
Qed.

(** Property X5.  In a registry reached by any calls, [register] for a
    message class whose name is a name every object literal inherits a
    property for throws a [TypeError] and changes nothing. *)
Theorem register_inherited_name_is_a_type_error
    (w : World) (mt : ClassConstructor) (h : Handler) :
  reachable w →
  dollar_name mt ∈ object_prototype_keys →
  register mt h w = (Throw TypeError, w).
Proof.
  intros Hr Hk. apply register_inherited_name; [|done].
  destruct (registry (this w) !! dollar_name mt) as [e|] eqn:E; [|done].
  by destruct (proj1 (wf_reachable _ Hr) _ _ E).
Qed.

Lemma nodup_memory_exec c w :
  NoDup (unhandledMessages (this w)) → NoDup (unhandledMessages (this (exec c w))).
Proof.
  intros Hw. destruct c as [mt h|name| |name|]; cbn [exec]; try done.
  - destruct (register_cases mt h w)
      as [(e & _ & _ & ->)|[(_ & _ & ->)|(mt0 & hs & _ & _ & ->)]]; done.
  - unfold get. destruct (negb (prop_in _ _)); [|by destruct (prop_get _ _)].
    destruct (existsb _ _) eqn:E; [done|]. cbn.
    apply NoDup_app. split; [done|]. split; [|apply NoDup_singleton].
    intros x Hx Hx'. apply list_elem_of_singleton in Hx'. subst x.
    apply remembered_true in Hx. congruence.
Qed.

(** Property X6.  Whatever calls were made, resets included, the log holds
    the unhandled-message diagnostic of a name at most once, and once
    exactly when the name is remembered; the memory holds no name twice. *)
Theorem diagnostic_at_most_once_ever (w : World) (name : string) :
  reachable w →
  diagnostics name (logger w) ≤ 1
  ∧ (diagnostics name (logger w) = 1 ↔ name ∈ unhandledMessages (this w))
  ∧ NoDup (unhandledMessages (this w)).
Proof.
  intros Hr. pose proof (once_per_name_reachable _ Hr name) as H.
  split; [|split].
  - rewrite H. destruct (bool_decide _); lia.
  - rewrite H. destruct (bool_decide _) eqn:E.
    + apply bool_decide_eq_true in E. by split.
    + apply bool_decide_eq_false in E. split; [lia|done].
  - clear H. revert w Hr. apply reachable_inv; [apply NoDup_nil_2|].
    intros c w. apply nodup_memory_exec.
Qed.

Lemma get_after_get (n1 n2 : string) w :
  fst (get n2 (snd (get n1 w))) = fst (get n2 w).
Proof. apply get_answer_local, get_registry. Qed.

(** Property X7.  As long as the registry is not reset, the list [get]
    returns for a name only grows at its end: what it returned before is a
    prefix of what it returns after any further calls. *)
Theorem get_list_only_grows
    (cs : list Call) (w : World) (name : string) (hs : list Handler) :
  CallReset ∉ cs →
  fst (get name w) = HandlerList hs →
  ∃ more, fst (get name (run cs w)) = HandlerList (hs ++ more).
Proof.
  revert w hs. induction cs as [|c cs IH]; intros w hs Hnr Hget.
  - exists []. by rewrite app_nil_r.
  - apply not_elem_of_cons in Hnr as [Hc Hnr]. rewrite run_cons.
    assert (∃ more, fst (get name (exec c w)) = HandlerList (hs ++ more))
      as (more & Hstep).
    { destruct c as [mt h|n1| |n1|]; cbn [exec]; try done.
      - destruct (register mt h w) as [[[]|err] w1] eqn:E; cbn [snd].
        + destruct (register_appends _ _ _ _ E) as (hs0 & E0 & E1 & Eo).
          destruct (decide (name = dollar_name mt)) as [->|Hne].
          * rewrite Hget in E0. injection E0 as <-. by exists [h].
          * exists []. by rewrite app_nil_r, (Eo _ Hne).
        + exists []. rewrite app_nil_r.
          destruct (register_cases mt h w)
            as [(e & _ & _ & E')|[(_ & _ & E')|(mt0 & hs0 & _ & _ & E')]];
            rewrite E' in E; by simplify_eq.
      - exists []. by rewrite app_nil_r, get_after_get.
      - exists []. by rewrite app_nil_r.
      - exists []. by rewrite app_nil_r. }
    destruct (IH _ _ Hnr Hstep) as (more' & Hfin).
    exists (more ++ more'). by rewrite app_assoc.
Qed.

(** Property X8.  A [get] call changes no answer: what a later [get],
    [getMessageNames] or [getMessageConstructor] returns and whether a later
    [register] returns or throws are the same as without it. *)
Theorem get_changes_no_answer (w : World) (n1 n2 : string) :
  fst (get n2 (snd (get n1 w))) = fst (get n2 w)
  ∧ getMessageNames (snd (get n1 w)) = getMessageNames w
  ∧ getMessageConstructor n2 (snd (get n1 w)) = getMessageConstructor n2 w
  ∧ ∀ mt h, fst (register mt h (snd (get n1 w))) = fst (register mt h w).
Proof.
  split; [apply get_after_get|]. split; [|split].
  - unfold getMessageNames. by rewrite get_registry.
  - unfold getMessageConstructor. by rewrite get_registry.
  - intros mt h. unfold register.
    assert (∀ w', registry (this w') = registry (this w) →
              fst (register mt h w') = fst (register mt h w)) as Hloc.
    { intros w' E. unfold register. rewrite E.
      destruct (prop_get (registry (this w)) (dollar_name mt)) eqn:Ep; cbn.
      - rewrite E, Ep. by destruct (some_is _ _).
      - by rewrite E, Ep.
      - rewrite !(prop_get_own _ _ _ (lookup_insert_eq _ _ _)). by cbn. }
    apply Hloc, get_registry.
Qed.

(** Property X9.  After [reset()] any pair can be registered, also one that
    was registered before, for a name that is not inherited from
    [Object.prototype]: the call returns, and the registry then holds this
    name only, with this class and this handler. *)
Theorem register_again_after_reset
    (w : World) (mt : ClassConstructor) (h : Handler) :
  dollar_name mt ∉ object_prototype_keys →
  ∃ w1, register mt h (reset w) = (Normal tt, w1)
        ∧ fst (get (dollar_name mt) w1) = HandlerList [h]
        ∧ getMessageNames w1 = [dollar_name mt]
        ∧ getMessageConstructor (dollar_name mt) w1 = Some mt.
Proof.
  intros Hk. eexists. split.
  { apply register_fresh_name; [cbn; apply lookup_empty|done]. }
  split; [|split].
  - erewrite get_own; [|cbn; apply lookup_insert_eq]. done.
  - unfold getMessageNames. cbn.
    by rewrite insert_empty, dom_singleton_L, elements_singleton.
  - erewrite getMessageConstructor_own; [|cbn; apply lookup_insert_eq]. done.
Qed.

(** What a call of [register] does to the registrations. *)
Lemma register_registry mt h w :
  registry (this (snd (register mt h w)))
  = match fst (register mt h w) with
    | Normal _ =>
        <[dollar_name mt :=
            {| messageType := default mt (getMessageConstructor (dollar_name mt) w);
               handlers := handlers_at (dollar_name mt) w ++ [h] |}]>
          (registry (this w))
    | Throw _ => registry (this w)
    end.
Proof.
  destruct (register_cases mt h w)
    as [(e & _ & _ & ->)|[(_ & _ & ->)|(mt0 & hs & Hc & _ & ->)]]; try done.
  cbn. destruct Hc as [He|(Hn & _ & -> & ->)].
  - by rewrite (getMessageConstructor_own _ _ _ He), (handlers_at_own _ _ _ He).
  - by rewrite (getMessageConstructor_none _ _ Hn), (handlers_at_none _ _ Hn).
Qed.

Lemma register_outcome_local mt h w w' :
  registry (this w') !! dollar_name mt = registry (this w) !! dollar_name mt →
  fst (register mt h w') = fst (register mt h w).
Proof.
  intros E.
  assert (prop_get (registry (this w')) (dollar_name mt)
          = prop_get (registry (this w)) (dollar_name mt)) as Ep.
  { unfold prop_get. by rewrite E. }
  unfold register. rewrite Ep.
  destruct (prop_get (registry (this w)) (dollar_name mt)) eqn:Ep'; cbn.
  - rewrite Ep, Ep'. by destruct (some_is _ _).
  - by rewrite Ep, Ep'.
  - rewrite !(prop_get_own _ _ _ (lookup_insert_eq _ _ _)). by cbn.
Qed.

Lemma register_other_entry mt h w (k : string) :
  k ≠ dollar_name mt →
  registry (this (snd (register mt h w))) !! k = registry (this w) !! k.
Proof.
  intros Hne. rewrite register_registry.
  destruct (fst (register mt h w)); [|done]. by rewrite lookup_insert_ne.
Qed.

(** Property X10.  Registrations under different names do not affect each
    other: the outcome of one is the same whether or not the other was made
    first, and the registrations are the same in either order. *)
Theorem registrations_under_other_names_are_independent
    (w : World) (mt1 mt2 : ClassConstructor) (h1 h2 : Handler) :
  dollar_name mt1 ≠ dollar_name mt2 →
  fst (register mt2 h2 (snd (register mt1 h1 w))) = fst (register mt2 h2 w)
  ∧ registry (this (snd (register mt2 h2 (snd (register mt1 h1 w)))))
    = registry (this (snd (register mt1 h1 (snd (register mt2 h2 w))))).
Proof.
  intros Hne.
  assert (∀ (ma mb : ClassConstructor) ha hb, dollar_name ma ≠ dollar_name mb →
            fst (register mb hb (snd (register ma ha w))) = fst (register mb hb w))
    as Hout.
  { intros ma mb ha hb H. apply register_outcome_local.
    apply register_other_entry. congruence. }
  split; [by apply Hout|].
  rewrite (register_registry mt2), (register_registry mt1 h1 (snd _)).
  rewrite !Hout by congruence.
  rewrite (register_registry mt1 h1 w), (register_registry mt2 h2 w).
  assert (∀ (ma mb : ClassConstructor) ha, dollar_name ma ≠ dollar_name mb →
            getMessageConstructor (dollar_name mb) (snd (register ma ha w))
            = getMessageConstructor (dollar_name mb) w
            ∧ handlers_at (dollar_name mb) (snd (register ma ha w))
              = handlers_at (dollar_name mb) w) as Hsame.
  { intros ma mb ha H.
    pose proof (register_other_entry ma ha w (dollar_name mb)) as E.
    split.
    - unfold getMessageConstructor, prop_in, prop_get. rewrite E by congruence. done.
    - unfold handlers_at. rewrite E by congruence. done. }
  destruct (Hsame mt1 mt2 h1 Hne) as [-> ->].
  destruct (Hsame mt2 mt1 h2 (not_eq_sym Hne)) as [-> ->].
  destruct (fst (register mt1 h1 w)), (fst (register mt2 h2 w)); try done.
  by apply insert_insert_ne.
Qed.

Lemma registrations_logged_snoc (name : string) log e :
  registrations_logged name (log ++ [e])
  = registrations_logged name log + (if is_registration_of name e then 1 else 0).
Proof.
  unfold registrations_logged. rewrite filter_app, length_app. f_equal.
  rewrite filter_cons. destruct (is_registration_of name e); by case_decide.
Qed.

Lemma logged_per_handler_exec c w :
  c ≠ CallReset → logged_per_handler w → logged_per_handler (exec c w).
Proof.
  intros Hc Hw. destruct c as [mt h|n1| |n1|]; cbn [exec]; try done.
  - destruct (register_cases mt h w)
      as [(e & _ & _ & ->)|[(_ & _ & ->)|(mt0 & hs & Hcase & _ & ->)]]; try done.
    intros name. cbn [snd log_entry set_registry logger].
    rewrite registrations_logged_snoc, (Hw name). cbn [is_registration_of].
    assert (handlers_at (dollar_name mt) w = hs) as Hat.
    { destruct Hcase as [He|(Hn & _ & _ & ->)].
      - by rewrite (handlers_at_own _ _ _ He).
      - by rewrite (handlers_at_none _ _ Hn). }
    destruct (decide (dollar_name mt = name)) as [<-|Hne].
    + rewrite bool_decide_eq_true_2 by done.
      match goal with
      | |- _ = length (handlers_at _ ?W) =>
          rewrite (handlers_at_own (dollar_name mt) W
                     {| messageType := mt0; handlers := hs ++ [h] |})
            by (cbn; apply lookup_insert_eq)
      end.
      cbn. rewrite Hat, length_app. cbn. lia.
    + rewrite bool_decide_eq_false_2 by done.
      match goal with
      | |- _ = length (handlers_at _ ?W) =>
          rewrite (handlers_at_local name w W)
            by (cbn; by rewrite lookup_insert_ne)
      end.
      lia.
  - intros name.
    rewrite (handlers_at_local name w (snd (get n1 w))) by (by rewrite get_registry).
    rewrite <- (Hw name).
    unfold get. destruct (negb (prop_in _ _)); [|by destruct (prop_get _ _)].
    destruct (negb _); [|done]. cbn [snd log_entry push_unhandled logger].
    rewrite registrations_logged_snoc. cbn. lia.
Qed.

Lemma logged_per_handler_run cs w :
  CallReset ∉ cs → logged_per_handler w → logged_per_handler (run cs w).
Proof.
  revert w. induction cs as [|c cs IH]; intros w Hnr Hw; [exact Hw|].
  apply not_elem_of_cons in Hnr as [Hc Hnr]. rewrite run_cons.
  apply IH; [done|]. apply logged_per_handler_exec; [congruence|done].
Qed.

(** Property X11.  In a registry that was never reset, the log holds one
    [Handler registered] message of a name for each handler that [get]
    returns for the name. *)
Theorem log_has_one_registration_per_handler
    (cs : list Call) (name : string) (hs : list Handler) :
  CallReset ∉ cs →
  fst (get name (run cs fresh)) = HandlerList hs →
  registrations_logged name (logger (run cs fresh)) = length hs.
Proof.
  intros Hnr Hget.
  assert (logged_per_handler (run cs fresh)) as Hinv.
  { apply logged_per_handler_run; [done|].
    intros n. cbn. unfold handlers_at. cbn. by rewrite lookup_empty. }
  rewrite (Hinv name).
  destruct (prop_get_cases (registry (this (run cs fresh))) name)
    as [(e & He & _)|[(Hn & Hk & _)|(Hn & Hk & _)]].
  - rewrite (get_own _ _ _ He) in Hget. injection Hget as <-.
    by rewrite (handlers_at_own _ _ _ He).
  - by rewrite (get_inherited _ _ Hn Hk) in Hget.
  - rewrite get_as_handlers_at in Hget by (by left). by injection Hget as <-.
Qed.

(** Property X12.  A [register] call that returns makes the name listed by
    [getMessageNames] and no other new name, logs one [Handler registered]
    message, and leaves the unhandled-name memory as it is. *)
Theorem successful_register_effects
    (w w1 : World) (mt : ClassConstructor) (h : Handler) :
  register mt h w = (Normal tt, w1) →
  (∀ n : string, n ∈ getMessageNames w1 ↔ n = dollar_name mt ∨ n ∈ getMessageNames w)
  ∧ logger w1 = logger w ++ [HandlerRegistered (dollar_name mt) (handler_name h)]
  ∧ unhandledMessages (this w1) = unhandledMessages (this w).
Proof.
  intros H1.
  destruct (register_cases mt h w)
    as [(e & _ & _ & E)|[(_ & _ & E)|(mt0 & hs0 & Hc & _ & E)]];
    rewrite E in H1; try discriminate.
  injection H1 as <-. split; [|done].
  intros n. rewrite !elem_of_getMessageNames. cbn.
  rewrite lookup_insert_is_Some. split.
  - intros [->|[_ ?]]; [by left|by right].
  - intros [->|Hn]; [by left|].
    destruct (decide (dollar_name mt = n)) as [->|Hne]; [by left|by right].
Qed.

(** Property X13.  A [register] call that throws, whatever the error,
    leaves the registry and the log as they were; the error is a
    [TypeError] exactly when the name has no entry, and the name is then
    one inherited from [Object.prototype]. *)
Theorem failed_register_changes_nothing
    (w w' : World) (mt : ClassConstructor) (h : Handler) (err : Exn) :
  register mt h w = (Throw err, w') →
  w' = w
  ∧ (err = TypeError ↔ registry (this w) !! dollar_name mt = None)
  ∧ (err = TypeError → dollar_name mt ∈ object_prototype_keys).
Proof.
  intros H.
  destruct (register_cases mt h w)
    as [(e & He & Hin & E)|[(Hn & Hk & E)|(mt0 & hs0 & _ & _ & E)]];
    rewrite E in H; try discriminate; injection H as <- <-.
  - split; [done|]. split; [|done]. split; [done|]. intros Hn.
    by pose proof (eq_trans (eq_sym Hn) He).
  - done.
Qed.

(** Property X14.  The only call that adds the unhandled-message diagnostic
    of a name to the log is a [get] of that name when it has no entry and
    is not remembered; the lookup returns the empty list and adds the
    diagnostic once. *)
Theorem diagnostic_only_from_lookup_without_entry
    (c : Call) (w : World) (name : string) :
  diagnostics name (logger (exec c w)) ≠ diagnostics name (logger w) →
  c = CallGet name
  ∧ registry (this w) !! name = None
  ∧ (name ∉ unhandledMessages (this w))
  ∧ fst (get name w) = HandlerList []
  ∧ diagnostics name (logger (exec c w)) = S (diagnostics name (logger w)).
Proof.
  intros Hd. destruct c as [mt h|n1| |n1|]; cbn [exec] in *; try done.
  - exfalso. apply Hd.
    destruct (register_cases mt h w)
      as [(e & _ & _ & ->)|[(_ & _ & ->)|(mt0 & hs & _ & _ & ->)]]; try done.
    cbn [snd log_entry set_registry logger]. rewrite diagnostics_snoc.
    rewrite decide_False by done. lia.
  - destruct (prop_get_cases (registry (this w)) n1)
      as [(e & He & _)|[(Hn & Hk & _)|(Hn & Hk & _)]].
    + by rewrite (get_own _ _ _ He) in Hd.
    + by rewrite (get_inherited _ _ Hn Hk) in Hd.
    + destruct (decide (n1 ∈ unhandledMessages (this w))) as [Hu|Hu].
      * by rewrite (get_missing_remembered _ _ Hn Hk Hu) in Hd.
      * rewrite (get_missing_first _ _ Hn Hk Hu) in Hd |- *.
        cbn [fst snd log_entry push_unhandled logger] in *.
        rewrite diagnostics_snoc in Hd |- *.
        destruct (decide (n1 = name)) as [->|Hne].
        -- rewrite decide_True by done. repeat split; try done; [|lia].
           by rewrite (get_missing_first _ _ Hn Hk Hu).
        -- rewrite decide_False in Hd by congruence. lia.
Qed.

Lemma memory_kept_exec c w (name : string) :
  name ∈ unhandledMessages (this w) → name ∈ unhandledMessages (this (exec c w)).
Proof.
  intros Hu. destruct c as [mt h|n1| |n1|]; cbn [exec]; try done.
  - destruct (register_cases mt h w)
      as [(e & _ & _ & ->)|[(_ & _ & ->)|(mt0 & hs & _ & _ & ->)]]; done.
  - unfold get. destruct (negb (prop_in _ _)); [|by destruct (prop_get _ _)].
    destruct (negb _); [|done]. cbn. apply elem_of_app. by left.
Qed.

Lemma reachable_run cs w : reachable w → reachable (run cs w).
Proof.
  intros [cs0 ->]. exists (cs0 ++ cs). unfold run. by rewrite fold_left_app.
Qed.

(** Property X15.  A remembered name stays remembered whatever calls
    follow, resets included, and its diagnostic is never logged again. *)
Theorem remembered_name_is_never_reported_again
    (cs : list Call) (w : World) (name : string) :
  reachable w →
  name ∈ unhandledMessages (this w) →
  name ∈ unhandledMessages (this (run cs w))
  ∧ diagnostics name (logger (run cs w)) = diagnostics name (logger w).
Proof.
  intros Hr Hu.
  assert (name ∈ unhandledMessages (this (run cs w))) as Hu'.
  { clear Hr. revert w Hu. induction cs as [|c cs IH]; intros w Hu; [done|].
    rewrite run_cons. by apply IH, memory_kept_exec. }
  split; [done|].
  rewrite (once_per_name_reachable _ (reachable_run cs _ Hr) name).
  rewrite (once_per_name_reachable _ Hr name).
  by rewrite !bool_decide_eq_true_2.
Qed.

Lemma configured_registry_reachable : reachable configured_registry.
Proof. by exists [CallRegister TestEvent handler]. Qed.

Lemma registered_handlers_are_distinct_witness : NoDup [handler].
Proof.
  exact (registered_handlers_are_distinct configured_registry
           (dollar_name TestEvent) [handler]
           configured_registry_reachable eq_refl).
Defined.

Lemma listed_names_have_handlers_witness :
  dollar_name TestEvent ∈ getMessageNames configured_registry
  ↔ ∃ h hs, fst (get (dollar_name TestEvent) configured_registry)
            = HandlerList (h :: hs).
Proof.
  exact (listed_names_have_handlers configured_registry (dollar_name TestEvent)
           configured_registry_reachable).
Defined.

Lemma constructor_is_that_of_first_registration_witness :
  register TestEvent handler fresh = (Normal tt, configured_registry)
  ∧ getMessageConstructor (dollar_name TestEvent) configured_registry
    = Some TestEvent.
Proof.
  split; [reflexivity|].
  exact (proj1 (constructor_is_that_of_first_registration fresh
                  configured_registry TestEvent handler eq_refl)).
Defined.

Lemma register_inherited_name_is_a_type_error_witness :
  dollar_name InheritedNameEvent ∈ object_prototype_keys
  ∧ register InheritedNameEvent handler configured_registry
    = (Throw TypeError, configured_registry).
Proof.
  assert (dollar_name InheritedNameEvent ∈ object_prototype_keys) as Hk
    by compute_done.
  split; [done|].
  exact (register_inherited_name_is_a_type_error configured_registry
           InheritedNameEvent handler configured_registry_reachable Hk).
Defined.

Lemma diagnostic_at_most_once_ever_witness :
  diagnostics unknown_name
    (logger (run [CallGet unknown_name; CallReset; CallGet unknown_name] fresh))
  ≤ 1.
Proof.
  apply (diagnostic_at_most_once_ever
           (run [CallGet unknown_name; CallReset; CallGet unknown_name] fresh)
           unknown_name).
  by exists [CallGet unknown_name; CallReset; CallGet unknown_name].
Defined.

Lemma get_list_only_grows_witness :
  ∃ more,
    fst (get (dollar_name TestEvent)
           (run [CallGet unknown_name; CallRegister TestEvent2 handler]
              configured_registry))
    = HandlerList ([handler] ++ more).
Proof.
  apply (get_list_only_grows [CallGet unknown_name; CallRegister TestEvent2 handler]
           configured_registry (dollar_name TestEvent) [handler]);
    [|reflexivity].
  intros Hin. repeat (apply elem_of_cons in Hin as [?|Hin]; [done|]).
  by apply not_elem_of_nil in Hin.
Defined.

Lemma register_again_after_reset_witness :
  (dollar_name TestEvent ∉ object_prototype_keys)
  ∧ ∃ w1, register TestEvent handler (reset configured_registry) = (Normal tt, w1)
          ∧ fst (get (dollar_name TestEvent) w1) = HandlerList [handler]
          ∧ getMessageNames w1 = [dollar_name TestEvent]
          ∧ getMessageConstructor (dollar_name TestEvent) w1 = Some TestEvent.
Proof.
  assert (dollar_name TestEvent ∉ object_prototype_keys) as Hk by compute_done.
  split; [done|].
  exact (register_again_after_reset configured_registry TestEvent handler Hk).
Defined.

Lemma registrations_under_other_names_are_independent_witness :
  dollar_name TestEvent ≠ dollar_name TestEvent2
  ∧ fst (register TestEvent2 handler configured_registry)
    = fst (register TestEvent2 handler fresh).
Proof.
  assert (dollar_name TestEvent ≠ dollar_name TestEvent2) as Hne by done.
  split; [done|].
  exact (proj1 (registrations_under_other_names_are_independent fresh
                  TestEvent TestEvent2 handler handler Hne)).
Defined.

Lemma log_has_one_registration_per_handler_witness :
  registrations_logged (dollar_name TestEvent)
    (logger (run [CallRegister TestEvent handler; CallRegister TestEvent handler]
               fresh))
  = 1.
Proof.
  apply (log_has_one_registration_per_handler
           [CallRegister TestEvent handler; CallRegister TestEvent handler]
           (dollar_name TestEvent) [handler]); [|reflexivity].
  intros Hin. repeat (apply elem_of_cons in Hin as [?|Hin]; [done|]).
  by apply not_elem_of_nil in Hin.
Defined.

Lemma successful_register_effects_witness :
  register TestEvent handler fresh = (Normal tt, configured_registry)
  ∧ logger configured_registry
    = logger fresh ++ [HandlerRegistered (dollar_name TestEvent) (handler_name handler)].
Proof.
  split; [reflexivity|].
  exact (proj1 (proj2 (successful_register_effects fresh configured_registry
                         TestEvent handler eq_refl))).
Defined.

Lemma failed_register_changes_nothing_witness :
  register InheritedNameEvent handler fresh = (Throw TypeError, fresh)
  ∧ registry (this fresh) !! dollar_name InheritedNameEvent = None.
Proof.
  split; [reflexivity|].
  exact (proj1 (proj1 (proj2 (failed_register_changes_nothing fresh fresh
                                InheritedNameEvent handler TypeError eq_refl)))
           eq_refl).
Defined.

Lemma diagnostic_only_from_lookup_without_entry_witness :
  diagnostics unknown_name (logger (exec (CallGet unknown_name) configured_registry))
  = S (diagnostics unknown_name (logger configured_registry)).
Proof.
  apply (diagnostic_only_from_lookup_without_entry (CallGet unknown_name)
           configured_registry unknown_name).
  vm_compute. lia.
Defined.

Lemma remembered_name_is_never_reported_again_witness :
  diagnostics unknown_name
    (logger (run [CallReset; CallGet unknown_name; CallRegister TestEvent handler]
               (snd (get unknown_name fresh))))
  = diagnostics unknown_name (logger (snd (get unknown_name fresh))).
Proof.
  apply (remembered_name_is_never_reported_again
           [CallReset; CallGet unknown_name; CallRegister TestEvent handler]
           (snd (get unknown_name fresh)) unknown_name).
  - by exists [CallGet unknown_name].
  - vm_compute. apply elem_of_cons. by left.
Defined.

(** ** Transport and dispatcher *)

Import Dispatcher.

Lemma executing_count_insert (l : list Slot) (i : nat) (s s' : Slot) :
  l !! i = Some s →
  length (filter (fun x => executing x) (<[i := s']> l))
    + (if executing s then 1 else 0)
  = length (filter (fun x => executing x) l)
    + (if executing s' then 1 else 0).
Proof.
  intros Hi.
  assert (i < length l) as Hlt by (by eapply lookup_lt_Some).
  rewrite insert_take_drop by done.
  rewrite <- (take_drop_middle l i s Hi) at 3.
  rewrite !filter_app, !length_app, !filter_cons.
  destruct s, s'; cbn; repeat case_decide; cbn; try lia; try done.
Qed.

Lemma release_other (h x : Handle) (l : list Handle) :
  x ∈ l → receipt x ≠ receipt h → x ∈ release h l.
Proof. intros Hin Hne. unfold release. by apply list_elem_of_filter. Qed.

Lemma release_absent (h : Handle) (l : list Handle) :
  receipt h ∉ map receipt l → release h l = l.
Proof.
  unfold release. induction l as [|x l IH]; intros Hn; [done|].
  cbn in Hn. apply not_elem_of_cons in Hn as [Hx Hl].
  rewrite filter_cons_True by congruence. by rewrite IH.
Qed.

Lemma release_length (h : Handle) (l : list Handle) :
  h ∈ l → NoDup (map receipt l) → length (release h l) + 1 = length l.
Proof.
  induction l as [|x l IH]; intros Hin Hnd.
  - by apply not_elem_of_nil in Hin.
  - cbn in Hnd. apply NoDup_cons in Hnd as [Hx Hnd].
    apply elem_of_cons in Hin as [->|Hin].
    + unfold release. rewrite filter_cons_False by (intros ?; done).
      fold (release x l). rewrite release_absent by done. cbn. lia.
    + unfold release. rewrite filter_cons_True.
      * fold (release h l). cbn. specialize (IH Hin Hnd). lia.
      * intros Heq. apply Hx. rewrite Heq.
        by apply (list_elem_of_fmap_2 receipt).
Qed.

Lemma release_gone (h : Handle) (l : list Handle) : h ∉ release h l.
Proof. unfold release. rewrite list_elem_of_filter. intros [? _]. done. Qed.

Lemma release_subset (h x : Handle) (l : list Handle) : x ∈ release h l → x ∈ l.
Proof. unfold release. rewrite list_elem_of_filter. tauto. Qed.

Lemma release_nodup (h : Handle) (l : list Handle) :
  NoDup (map receipt l) → NoDup (map receipt (release h l)).
Proof.
  unfold release. induction l as [|x l IH]; intros Hnd; [done|].
  cbn in Hnd. apply NoDup_cons in Hnd as [Hx Hnd].
  rewrite filter_cons. case_decide; [|by apply IH].
  cbn. apply NoDup_cons. split; [|by apply IH].
  intros Hin. apply Hx. apply list_elem_of_fmap in Hin as (y & -> & Hy).
  apply (list_elem_of_fmap_2 receipt). by apply list_elem_of_filter in Hy as [_ ?].
Qed.

Lemma release_fresh (h : Handle) (l : list Handle) (n : nat) :
  Forall (fun x => receipt x < n) l → Forall (fun x => receipt x < n) (release h l).
Proof.
  rewrite !Forall_forall. intros H x Hx. apply H. by eapply release_subset.
Qed.

Lemma no_execution_in_idle_slots (k : nat) :
  length (filter (fun s => executing s) (replicate k Idle)) = 0.
Proof.
  induction k as [|k IH]; [done|].
  rewrite replicate_S, filter_cons_False; [done|]. cbn. tauto.
Qed.

Lemma log_snoc_same (r : nat) (h : Handler) (l : list (nat * Handler)) :
  (filter (fun x => x.1 = r) (l ++ [(r, h)])).*2
  = (filter (fun x => x.1 = r) l).*2 ++ [h].
Proof. rewrite filter_app, fmap_app. f_equal. by rewrite filter_cons_True. Qed.

Lemma log_snoc_other (r r' : nat) (h : Handler) (l : list (nat * Handler)) :
  r' ≠ r →
  (filter (fun x => x.1 = r) (l ++ [(r', h)])).*2 = (filter (fun x => x.1 = r) l).*2.
Proof.
  intros Hne. rewrite filter_app, fmap_app.
  rewrite (filter_cons_False _ (r', h)) by done. cbn. by rewrite app_nil_r.
Qed.

Lemma log_fresh (r : nat) (l : list (nat * Handler)) :
  Forall (fun x => x.1 < r) l → (filter (fun x => x.1 = r) l).*2 = [].
Proof.
  induction 1 as [|x l Hx _ IH]; [done|].
  rewrite filter_cons_False by lia. done.
Qed.

Ltac simpl_pool :=
  unfold running, started, invoked_for in *;
  cbn [transport slots invoked finished published deleted returned
       delete retry enqueue accept pending claimed next_receipt
       receipt message fst snd] in *.

Ltac step_cases H :=
  unfold step, claimNext in H;
  repeat match type of H with
    | context [match pending ?t with _ => _ end] => destruct (pending t) eqn:?
    | context [match ?x with _ => _ end] => destruct x eqn:?
    end;
  simplify_eq;
  repeat match goal with
    | E : slots _ !! _ = Some _ |- _ => revert E
    | E : pending _ = _ |- _ => revert E
    | E : _ = @nil Handler |- _ => revert E
    | E : _ = @cons Handler _ _ |- _ => revert E
    end.

Section Invariants.

Variable lookup : MessageName → list Handler.
Variable n : nat.

#[local] Abbreviation inv := (inv lookup n).

Lemma inv_init : inv (init n).
Proof.
  split.
  - apply length_replicate.
  - unfold running. cbn [init slots]. by rewrite no_execution_in_idle_slots.
  - intros m H. by apply not_elem_of_nil in H.
  - intros h H. by apply not_elem_of_nil in H.
  - unfold running, started. cbn [init slots invoked].
    by rewrite no_execution_in_idle_slots.
  - apply Forall_nil_2.
  - apply NoDup_nil_2.
  - intros i h c r H. apply lookup_replicate in H as [? _]. done.
  - intros i j hi ci ri hj cj rj H. apply lookup_replicate in H as [? _]. done.
  - apply Forall_nil_2.
  - intros i h c r H. apply lookup_replicate in H as [? _]. done.
Qed.


Lemma inv_step a p p' : inv p → step lookup a p = Some p' → inv p'.
Proof.
  intros [Hs Hm Hw Hc Hst Hf Hn Ho Hd Hl Hor] H.
  destruct a as [m|i|i|i k]; step_cases H.
  - (* a message is published *)
    split; simpl_pool; try done.
    + rewrite !length_app. cbn. lia.
    + intros m'. rewrite !elem_of_app. intros [?|?]; [left; by apply Hw|by right].
    + intros h Hh. apply elem_of_app. left. by apply Hc.
  - (* claim of a message without handlers *)
    intros Hlook Hpend Hi.
    assert (∀ h, h ∈ claimed (transport p) ++
                       [{| receipt := next_receipt (transport p); message := m |}] →
                 message h ∈ published p) as Hc'.
    { intros h [Hh|Hh]%elem_of_app; [by apply Hc|].
      apply list_elem_of_singleton in Hh as ->. cbn. apply Hw, elem_of_cons. by left. }
    split; simpl_pool; try done.
    + cbn in Hm. lia.
    + intros m' Hm'. apply Hw, elem_of_cons. by right.
    + intros h Hh. by apply release_subset, Hc' in Hh.
    + apply release_fresh, Forall_app. split.
      * eapply Forall_impl; [exact Hf|]. cbn. lia.
      * apply Forall_singleton. cbn. lia.
    + apply release_nodup. rewrite map_app. apply NoDup_app. cbn.
      split; [done|]. split; [|apply NoDup_singleton].
      intros r Hr Hr'. apply list_elem_of_singleton in Hr'. subst r.
      apply list_elem_of_fmap in Hr as (x & Hx & Hin).
      rewrite Forall_forall in Hf. specialize (Hf _ Hin). lia.
    + intros j hj c r Hj. apply release_other.
      * apply elem_of_app. left. by eapply Ho.
      * cbn. specialize (Ho _ _ _ _ Hj). rewrite Forall_forall in Hf.
        specialize (Hf _ Ho). lia.
    + eapply Forall_impl; [exact Hl|]. cbn. lia.
  - (* claim of a message with handlers *)
    intros Hlook Hpend Hi.
    assert (∀ j hj c r, slots p !! j = Some (Executing hj c r) →
                        receipt hj < next_receipt (transport p)) as Hlt.
    { intros j hj c r Hj. specialize (Ho _ _ _ _ Hj).
      rewrite Forall_forall in Hf. by apply Hf. }
    split; simpl_pool.
    + by rewrite length_insert.
    + pose proof (executing_count_insert _ _ _ (Executing
        {| receipt := next_receipt (transport p); message := m |} h l0) Hi) as Hc0.
      cbn in Hc0, Hm. lia.
    + intros m' Hm'. apply Hw, elem_of_cons. by right.
    + intros h' [Hh|Hh]%elem_of_app; [by apply Hc|].
      apply list_elem_of_singleton in Hh as ->. cbn. apply Hw, elem_of_cons. by left.
    + pose proof (executing_count_insert _ _ _ (Executing
        {| receipt := next_receipt (transport p); message := m |} h l0) Hi) as Hc0.
      rewrite length_app. cbn in Hc0 |- *. lia.
    + apply Forall_app. split.
      * eapply Forall_impl; [exact Hf|]. cbn. lia.
      * apply Forall_singleton. cbn. lia.
    + rewrite map_app. apply NoDup_app. cbn.
      split; [done|]. split; [|apply NoDup_singleton].
      intros r Hr Hr'. apply list_elem_of_singleton in Hr'. subst r.
      apply list_elem_of_fmap in Hr as (x & Hx & Hin).
      rewrite Forall_forall in Hf. specialize (Hf _ Hin). lia.
    + intros j hj c r Hj. apply elem_of_app.
      apply list_lookup_insert_Some in Hj as [(-> & Heq & _)|(Hne & Hj)].
      * right. injection Heq as <- _ _. by apply list_elem_of_singleton.
      * left. by eapply Ho.
    + intros j1 j2 h1 c1 r1 h2 c2 r2 H1 H2 Heq.
      apply list_lookup_insert_Some in H1 as [(-> & E1 & _)|(Hne1 & H1)];
        apply list_lookup_insert_Some in H2 as [(-> & E2 & _)|(Hne2 & H2)];
        try done.
      * injection E1 as <- _ _. specialize (Hlt _ _ _ _ H2). cbn in Heq. lia.
      * injection E2 as <- _ _. specialize (Hlt _ _ _ _ H1). cbn in Heq. lia.
      * by eapply Hd.
    + apply Forall_app. split.
      * eapply Forall_impl; [exact Hl|]. cbn. lia.
      * apply Forall_singleton. cbn. lia.
    + intros j hj c r Hj.
      apply list_lookup_insert_Some in Hj as [(-> & Heq & _)|(Hne & Hj)].
      * injection Heq as <- <- <-. exists []. cbn. split; [done|].
        by rewrite log_snoc_same, log_fresh.
      * destruct (Hor _ _ _ _ Hj) as (before & E1 & E2). exists before.
        split; [done|]. rewrite log_snoc_other; [done|].
        specialize (Hlt _ _ _ _ Hj). lia.
  - (* the last handler of a message completes *)
    intros Hi.
    split; simpl_pool.
    + by rewrite length_insert.
    + pose proof (executing_count_insert _ _ _ Idle Hi) as Hc0.
      cbn in Hc0. lia.
    + done.
    + intros h' Hh. by apply release_subset, Hc in Hh.
    + pose proof (executing_count_insert _ _ _ Idle Hi) as Hc0.
      cbn in Hc0. lia.
    + by apply release_fresh.
    + by apply release_nodup.
    + intros j hj c r Hj.
      apply list_lookup_insert_Some in Hj as [(-> & Heq & _)|(Hne & Hj)]; [done|].
      apply release_other; [by eapply Ho|].
      intros Heq. apply Hne. symmetry. by eapply Hd.
    + intros j1 j2 h1 c1 r1 h2 c2 r2 H1 H2 Heq.
      apply list_lookup_insert_Some in H1 as [(-> & E1 & _)|(Hne1 & H1)]; [done|].
      apply list_lookup_insert_Some in H2 as [(-> & E2 & _)|(Hne2 & H2)]; [done|].
      by eapply Hd.
    + done.
    + intros j hj c r Hj.
      apply list_lookup_insert_Some in Hj as [(-> & Heq & _)|(Hne & Hj)]; [done|].
      by apply Hor in Hj.
  - (* a handler completes and the next one is invoked *)
    intros Hi.
    assert (∀ j hj c r, slots p !! j = Some (Executing hj c r) →
                        receipt hj < next_receipt (transport p)) as Hlt.
    { intros j hj c r Hj. specialize (Ho _ _ _ _ Hj).
      rewrite Forall_forall in Hf. by apply Hf. }
    split; simpl_pool.
    + by rewrite length_insert.
    + pose proof (executing_count_insert _ _ _ (Executing h h0 l) Hi) as Hc0.
      cbn in Hc0. lia.
    + done.
    + done.
    + pose proof (executing_count_insert _ _ _ (Executing h h0 l) Hi) as Hc0.
      rewrite length_app. cbn in Hc0 |- *. lia.
    + done.
    + done.
    + intros j hj c r Hj.
      apply list_lookup_insert_Some in Hj as [(-> & Heq & _)|(Hne & Hj)].
      * injection Heq as <- _ _. by eapply Ho.
      * by eapply Ho.
    + intros j1 j2 h1 c1 r1 h2 c2 r2 H1 H2 Heq.
      apply list_lookup_insert_Some in H1 as [(-> & E1 & _)|(Hne1 & H1)];
        apply list_lookup_insert_Some in H2 as [(-> & E2 & _)|(Hne2 & H2)];
        try done.
      * injection E1 as <- _ _. symmetry. by eapply Hd.
      * injection E2 as <- _ _. by eapply Hd.
      * by eapply Hd.
    + apply Forall_app. split; [done|].
      apply Forall_singleton. cbn. by eapply Hlt.
    + intros j hj c r Hj.
      apply list_lookup_insert_Some in Hj as [(-> & Heq & _)|(Hne & Hj)].
      * injection Heq as <- <- <-.
        destruct (Hor _ _ _ _ Hi) as (before & E1 & E2).
        exists (before ++ [current]). rewrite <- app_assoc. split; [done|].
        by rewrite log_snoc_same, E2.
      * destruct (Hor _ _ _ _ Hj) as (before & E1 & E2). exists before.
        split; [done|]. rewrite log_snoc_other; [done|].
        intros Heq. apply Hne. by eapply Hd.
  - (* a handler fails *)
    intros Hi.
    split; simpl_pool.
    + by rewrite length_insert.
    + pose proof (executing_count_insert _ _ _ Idle Hi) as Hc0.
      rewrite length_app. cbn in Hc0 |- *. lia.
    + intros m' [Hm'|Hm']%elem_of_app; [by apply Hw|].
      apply list_elem_of_singleton in Hm' as ->. by eapply Hc, Ho.
    + intros h' Hh. by apply release_subset, Hc in Hh.
    + pose proof (executing_count_insert _ _ _ Idle Hi) as Hc0.
      cbn in Hc0. lia.
    + by apply release_fresh.
    + by apply release_nodup.
    + intros j hj c r Hj.
      apply list_lookup_insert_Some in Hj as [(-> & Heq & _)|(Hne & Hj)]; [done|].
      apply release_other; [by eapply Ho|].
      intros Heq. apply Hne. symmetry. by eapply Hd.
    + intros j1 j2 h1 c1 r1 h2 c2 r2 H1 H2 Heq.
      apply list_lookup_insert_Some in H1 as [(-> & E1 & _)|(Hne1 & H1)]; [done|].
      apply list_lookup_insert_Some in H2 as [(-> & E2 & _)|(Hne2 & H2)]; [done|].
      by eapply Hd.
    + done.
    + intros j hj c r Hj.
      apply list_lookup_insert_Some in Hj as [(-> & Heq & _)|(Hne & Hj)]; [done|].
      by apply Hor in Hj.
Qed.

Lemma inv_steps acts p p' : inv p → steps lookup acts p = Some p' → inv p'.
Proof.
  revert p. induction acts as [|a acts IH]; intros p Hp H; cbn in H.
  - by injection H as <-.
  - destruct (step lookup a p) as [p1|] eqn:E; [|done].
    eapply IH; [|done]. by eapply inv_step.
Qed.

Lemma inv_reachable p : reachable lookup n p → inv p.
Proof. intros [acts H]. eapply inv_steps; [apply inv_init|done]. Qed.

Lemma steps_snoc acts a p p1 p2 :
  steps lookup acts p = Some p1 → step lookup a p1 = Some p2 →
  steps lookup (acts ++ [a]) p = Some p2.
Proof.
  revert p. induction acts as [|b acts IH]; intros p H1 H2; cbn in *.
  - injection H1 as ->. by rewrite H2.
  - destruct (step lookup b p) as [q|]; [|done]. by apply IH.
Qed.

Lemma reachable_step a p p' :
  reachable lookup n p → step lookup a p = Some p' → reachable lookup n p'.
Proof. intros [acts H] Hs. exists (acts ++ [a]). by eapply steps_snoc. Qed.

Lemma running_le p : inv p → running p ≤ n.
Proof.
  intros Hp. rewrite <- (inv_slots _ _ _ Hp). unfold running. apply length_filter.
Qed.

Lemma published_grows a q q1 m :
  step lookup a q = Some q1 → m ∈ published q → m ∈ published q1.
Proof.
  intros H Hm. destruct a as [m'|i|i|i k]; step_cases H; intros; simpl_pool;
    try done.
  apply elem_of_app. by left.
Qed.

Lemma published_grows_steps acts q p m :
  steps lookup acts q = Some p → m ∈ published q → m ∈ published p.
Proof.
  revert q. induction acts as [|a acts IH]; intros q H Hm; cbn in H.
  - by injection H as <-.
  - destruct (step lookup a q) as [q1|] eqn:E; [|done].
    eapply IH; [done|]. by eapply published_grows.
Qed.

(** When every published message has a handler, a message is only resolved
    by the end of a handler execution. *)
Lemma resolved_le_finished p :
  reachable lookup n p →
  (∀ m, m ∈ published p → lookup (name m) ≠ []) →
  deleted p + returned p ≤ finished p.
Proof.
  intros [acts H] Hne. revert H.
  assert (deleted (init n) + returned (init n) ≤ finished (init n)) as H0 by (cbn; lia).
  revert H0. generalize inv_init. generalize (init n).
  induction acts as [|a acts IH]; intros q Hinv Hq H; cbn in H.
  - injection H as <-. done.
  - destruct (step lookup a q) as [q1|] eqn:E; [|done].
    eapply IH; [by eapply inv_step| |done].
    assert (∀ m, m ∈ pending (transport q) → lookup (name m) ≠ []) as Hw.
    { intros m Hm. apply Hne. eapply published_grows_steps; [done|].
      eapply published_grows; [done|]. by apply (inv_waiting _ _ _ Hinv). }
    clear IH H.
    destruct a as [m|i|i|i k]; step_cases E; intros; simpl_pool; try lia.
    exfalso. eapply (Hw m); [|done]. apply elem_of_cons. by left.
Qed.

End Invariants.

Lemma all_slots_executing (l : list Slot) :
  existsb (fun s => negb (executing s)) l = false →
  length (filter (fun s => executing s) l) = length l.
Proof.
  induction l as [|s l IH]; [done|]. cbn [existsb].
  intros H. apply orb_false_iff in H as [Hs Hl].
  rewrite filter_cons_True by (by destruct (executing s)).
  cbn. by rewrite IH.
Qed.

Lemma executing_slot_of_full (l : list Slot) (i : nat) :
  length (filter (fun s => executing s) l) = length l → i < length l →
  ∃ h c r, l !! i = Some (Executing h c r).
Proof.
  revert i. induction l as [|s l IH]; intros i Hfull Hi; cbn in Hi; [lia|].
  rewrite filter_cons in Hfull. case_decide as Hs.
  - cbn in Hfull. destruct i as [|i].
    + destruct s; [done|]. by eexists _, _, _.
    + cbn. apply IH; lia.
  - pose proof (length_filter (fun s => executing s) l) as Hle. cbn in Hfull. lia.
Qed.

Section Claims.

Variable lookup : MessageName → list Handler.
Variable n : nat.

(** A state in which no claim is possible and enough messages were
    published has every slot busy. *)
Lemma saturated_when_quiescent p :
  reachable lookup n p →
  (∀ m, m ∈ published p → lookup (name m) ≠ []) →
  claim_enabled p = false →
  n + finished p ≤ length (published p) →
  running p = n ∧ started p = n + finished p.
Proof.
  intros Hr Hne Hq Hpub.
  pose proof (inv_reachable _ _ _ Hr) as Hp.
  pose proof (resolved_le_finished _ _ _ Hr Hne) as Hres.
  pose proof (running_le _ _ _ Hp) as Hle.
  pose proof (inv_messages _ _ _ Hp) as Hm.
  pose proof (inv_started _ _ _ Hp) as Hst.
  assert (running p = n) as Hrun.
  { unfold claim_enabled in Hq. destruct (pending (transport p)) as [|m rest].
    - cbn in Hm. lia.
    - apply all_slots_executing in Hq. unfold running. rewrite Hq.
      apply (inv_slots _ _ _ Hp). }
  lia.
Qed.

Lemma complete_last p i h c :
  reachable lookup n p →
  slots p !! i = Some (Executing h c []) →
  ∃ p', step lookup (Complete i) p = Some p'
        ∧ depth (transport p') + 1 = depth (transport p)
        ∧ pending (transport p') = pending (transport p)
        ∧ (h ∉ claimed (transport p'))
        ∧ deleted p' = S (deleted p)
        ∧ returned p' = returned p
        ∧ invoked p' = invoked p
        ∧ slots p' = <[i := Idle]> (slots p).
Proof.
  intros Hr Hi. pose proof (inv_reachable _ _ _ Hr) as Hp.
  eexists. split; [cbn; by rewrite Hi|]. simpl_pool. unfold depth. cbn.
  repeat split; try done.
  - pose proof (release_length h (claimed (transport p))
                  (inv_owned _ _ _ Hp _ _ _ _ Hi) (inv_nodup _ _ _ Hp)). lia.
  - apply release_gone.
Qed.

Lemma fail_returns p i h c r k :
  reachable lookup n p →
  slots p !! i = Some (Executing h c r) →
  ∃ p', step lookup (Fail i k) p = Some p'
        ∧ depth (transport p') = depth (transport p)
        ∧ pending (transport p') = pending (transport p) ++ [message h]
        ∧ claimed (transport p') = release h (claimed (transport p))
        ∧ next_receipt (transport p') = next_receipt (transport p)
        ∧ (h ∉ claimed (transport p'))
        ∧ returned p' = S (returned p)
        ∧ deleted p' = deleted p
        ∧ invoked p' = invoked p
        ∧ slots p' = <[i := Idle]> (slots p).
Proof.
  intros Hr Hi. pose proof (inv_reachable _ _ _ Hr) as Hp.
  eexists. split; [cbn; by rewrite Hi|]. simpl_pool. unfold depth. cbn.
  repeat split; try done.
  - pose proof (release_length h (claimed (transport p))
                  (inv_owned _ _ _ Hp _ _ _ _ Hi) (inv_nodup _ _ _ Hp)).
    rewrite length_app. cbn. lia.
  - apply release_gone.
Qed.

Lemma claim_starts p i m rest first others :
  slots p !! i = Some Idle →
  pending (transport p) = m :: rest →
  lookup (name m) = first :: others →
  ∃ p', step lookup (Claim i) p = Some p'
        ∧ slots p' = <[i := Executing {| receipt := next_receipt (transport p);
                                          message := m |} first others]> (slots p)
        ∧ pending (transport p') = rest
        ∧ invoked p' = invoked p ++ [(next_receipt (transport p), first)]
        ∧ running p' = S (running p)
        ∧ deleted p' = deleted p
        ∧ depth (transport p') = depth (transport p).
Proof.
  intros Hi Hpend Hlook. eexists. split.
  { cbn. rewrite Hi. unfold claimNext. rewrite Hpend. cbn. by rewrite Hlook. }
  simpl_pool. unfold depth. cbn. repeat split; try done.
  - pose proof (executing_count_insert _ _ _ (Executing
      {| receipt := next_receipt (transport p); message := m |} first others) Hi) as Hc.
    cbn in Hc. lia.
  - rewrite Hpend, length_app. cbn. lia.
Qed.

(** A message whose only handler fails is delivered again, and is deleted
    when the handler then completes. *)
Lemma retry_then_delete p i j h c k :
  reachable lookup n p →
  slots p !! i = Some (Executing h c []) →
  lookup (name (message h)) = [c] →
  pending (transport p) = [] →
  (j = i ∨ slots p !! j = Some Idle) →
  ∃ p1 p2 p3,
    step lookup (Fail i k) p = Some p1
    ∧ step lookup (Claim j) p1 = Some p2
    ∧ step lookup (Complete j) p2 = Some p3
    ∧ invoked p3 = invoked p ++ [(next_receipt (transport p), c)]
    ∧ c ∈ invoked_for (receipt h) p3
    ∧ c ∈ invoked_for (next_receipt (transport p)) p3
    ∧ receipt h ≠ next_receipt (transport p)
    ∧ depth (transport p3) + 1 = depth (transport p)
    ∧ pending (transport p3) = []
    ∧ deleted p3 = S (deleted p).
Proof.
  intros Hr Hi Hlook Hpend Hj.
  pose proof (inv_reachable _ _ _ Hr) as Hp.
  assert (i < length (slots p)) as Hlen by (by eapply lookup_lt_Some).
  destruct (fail_returns p i h c [] k Hr Hi)
    as (p1 & S1 & D1 & P1 & C1 & N1 & _ & _ & Del1 & I1 & Sl1).
  assert (slots p1 !! j = Some Idle) as Hj1.
  { rewrite Sl1. destruct Hj as [->|Hj].
    - by apply list_lookup_insert_eq.
    - destruct (decide (i = j)) as [->|Hne]; [by apply list_lookup_insert_eq|].
      by rewrite list_lookup_insert_ne. }
  rewrite Hpend in P1. cbn in P1.
  destruct (claim_starts p1 j (message h) [] c [] Hj1 P1 Hlook)
    as (p2 & S2 & Sl2 & P2 & I2 & _ & Del2 & D2).
  assert (reachable lookup n p2) as Hr2.
  { eapply reachable_step; [|exact S2]. by eapply reachable_step. }
  assert (slots p2 !! j = Some (Executing {| receipt := next_receipt (transport p1);
                                             message := message h |} c [])) as Hj2.
  { rewrite Sl2. apply list_lookup_insert_eq. by eapply lookup_lt_Some. }
  destruct (complete_last p2 j _ c Hr2 Hj2)
    as (p3 & S3 & D3 & P3 & _ & Del3 & _ & I3 & _).
  assert (receipt h < next_receipt (transport p)) as Hlt.
  { pose proof (inv_owned _ _ _ Hp _ _ _ _ Hi) as Hin.
    pose proof (inv_fresh _ _ _ Hp) as Hf. rewrite Forall_forall in Hf.
    by apply Hf. }
  exists p1, p2, p3. repeat split; try done.
  - by rewrite I3, I2, I1, N1.
  - unfold invoked_for. rewrite I3, I2, I1, N1.
    rewrite log_snoc_other by lia.
    destruct (inv_order _ _ _ Hp _ _ _ _ Hi) as (before & _ & E).
    unfold invoked_for in E. rewrite E.
    apply elem_of_app. right. by apply list_elem_of_singleton.
  - unfold invoked_for. rewrite I3, I2, I1, N1. rewrite log_snoc_same.
    apply elem_of_app. right. by apply list_elem_of_singleton.
  - lia.
  - lia.
  - by rewrite P3, P2.
  - by rewrite Del3, Del2, Del1.
Qed.

(** With one handler per message: when every slot is busy and a message
    waits, the end of one execution lets the waiting message's handler
    start. *)
Lemma release_lets_next_start p i :
  reachable lookup n p →
  (∀ m, m ∈ published p → length (lookup (name m)) = 1) →
  running p = n →
  pending (transport p) ≠ [] →
  i < n →
  ∃ p1 p2,
    step lookup (Complete i) p = Some p1
    ∧ running p1 + 1 = n
    ∧ step lookup (Claim i) p1 = Some p2
    ∧ running p2 = n
    ∧ started p2 = S (started p).
Proof.
  intros Hr Hone Hrun Hpend Hi.
  pose proof (inv_reachable _ _ _ Hr) as Hp.
  pose proof (inv_slots _ _ _ Hp) as Hlen.
  destruct (executing_slot_of_full (slots p) i) as (h & c & r & Hsl).
  { unfold running in Hrun. lia. }
  { lia. }
  assert (r = []) as ->.
  { destruct (inv_order _ _ _ Hp _ _ _ _ Hsl) as (before & E & _).
    specialize (Hone (message h)
                  (inv_claimed _ _ _ Hp _ (inv_owned _ _ _ Hp _ _ _ _ Hsl))).
    rewrite E, length_app in Hone.
    cbn in Hone. destruct r; [done|]. cbn in Hone. lia. }
  destruct (complete_last p i h c Hr Hsl)
    as (p1 & S1 & _ & P1 & _ & _ & _ & I1 & Sl1).
  assert (slots p1 !! i = Some Idle) as Hi1.
  { rewrite Sl1. apply list_lookup_insert_eq. lia. }
  assert (running p1 + 1 = n) as Hrun1.
  { pose proof (executing_count_insert _ _ _ Idle Hsl) as Hc.
    unfold running in *. rewrite Sl1. cbn in Hc. lia. }
  destruct (pending (transport p)) as [|m rest] eqn:Ep; [done|].
  assert (length (lookup (name m)) = 1) as Hm.
  { apply Hone, (inv_waiting _ _ _ Hp). rewrite Ep. apply elem_of_cons. by left. }
  destruct (lookup (name m)) as [|first others] eqn:El; [done|].
  destruct (claim_starts p1 i m rest first others Hi1 P1 El)
    as (p2 & S2 & _ & _ & I2 & R2 & _).
  exists p1, p2. repeat split; try done.
  - lia.
  - unfold started. rewrite I2, I1, length_app. cbn. lia.
Qed.

End Claims.


Lemma steps_app (lookup : MessageName → list Handler) acts1 acts2 p q :
  steps lookup (acts1 ++ acts2) p = Some q →
  ∃ p1, steps lookup acts1 p = Some p1 ∧ steps lookup acts2 p1 = Some q.
Proof.
  revert p. induction acts1 as [|a acts1 IH]; intros p H; cbn in *.
  - by exists p.
  - destruct (step lookup a p) as [p'|]; [|done]. by apply IH.
Qed.

(** Claim C1.  In every state a dispatcher with [n] slots can reach, and so
    at every instant of every execution, the handler executions in flight,
    that is, the invocations started and not yet ended, are at most [n], for
    every [n].  When each published message has one handler and no claim is
    possible: if at least [n] messages more than executions ended were
    published, exactly [n] invocations are in flight; and if more than that
    were published, the end of any one of them lets the waiting message's
    handler start, which brings the invocations started to one more while [n]
    are in flight again.  With two slots and three messages published this
    is: two in flight and two started before any release, and three started
    with two in flight after one. *)
Theorem at_most_N_handlers_in_flight
    (lookup : MessageName → list Handler) (n : nat) (p : Pool) :
  reachable lookup n p →
  (started p = running p + finished p
   ∧ started p ≤ finished p + n
   ∧ running p ≤ n)
  ∧ (∀ acts k,
        steps lookup acts (init n) = Some p →
        ∃ q, steps lookup (take k acts) (init n) = Some q
             ∧ started q ≤ finished q + n)
  ∧ ((∀ m, m ∈ published p → length (lookup (name m)) = 1) →
     claim_enabled p = false →
     (n + finished p ≤ length (published p) →
        running p = n ∧ started p = n + finished p)
     ∧ (n + finished p < length (published p) →
        ∀ i, i < n →
          ∃ p1 p2, step lookup (Complete i) p = Some p1
                   ∧ running p1 + 1 = n
                   ∧ step lookup (Claim i) p1 = Some p2
                   ∧ running p2 = n
                   ∧ started p2 = S (started p)
                   ∧ finished p2 = S (finished p)))
  ∧ (n = 2 →
     length (published p) = 3 →
     (∀ m, m ∈ published p → length (lookup (name m)) = 1) →
     claim_enabled p = false →
     (finished p = 0 →
        running p = 2 ∧ started p = 2
        ∧ ∀ i, i < 2 →
            ∃ p1 p2, step lookup (Complete i) p = Some p1
                     ∧ running p1 = 1
                     ∧ step lookup (Claim i) p1 = Some p2
                     ∧ running p2 = 2
                     ∧ started p2 = 3)
     ∧ (finished p = 1 → running p = 2 ∧ started p = 3)).
Proof.
  intros Hr.
  assert (∀ q, reachable lookup n q →
               started q = running q + finished q
               ∧ started q ≤ finished q + n ∧ running q ≤ n) as Hbound.
  { intros q Hq. pose proof (inv_reachable _ _ _ Hq) as Hinv.
    pose proof (inv_started _ _ _ Hinv). pose proof (running_le _ _ _ Hinv).
    lia. }
  assert (∀ m, (∀ m, m ∈ published p → length (lookup (name m)) = 1) →
               m ∈ published p → lookup (name m) ≠ []) as Hne.
  { intros m Hone Hm E. specialize (Hone m Hm). by rewrite E in Hone. }
  assert ((∀ m, m ∈ published p → length (lookup (name m)) = 1) →
          claim_enabled p = false →
          n + finished p < length (published p) →
          ∀ i, i < n →
            ∃ p1 p2, step lookup (Complete i) p = Some p1
                     ∧ running p1 + 1 = n
                     ∧ step lookup (Claim i) p1 = Some p2
                     ∧ running p2 = n
                     ∧ started p2 = S (started p)
                     ∧ finished p2 = S (finished p)) as Hnext.
  { intros Hone Hq Hpub i Hi.
    pose proof (inv_reachable _ _ _ Hr) as Hp.
    destruct (saturated_when_quiescent lookup n p Hr (fun m => Hne m Hone) Hq)
      as [Hrun Hst]; [lia|].
    assert (pending (transport p) ≠ []) as Hpend.
    { pose proof (inv_messages _ _ _ Hp) as Hm.
      pose proof (resolved_le_finished _ _ _ Hr (fun m => Hne m Hone)) as Hres.
      intros E. rewrite E in Hm. cbn in Hm. lia. }
    destruct (release_lets_next_start lookup n p i Hr Hone Hrun Hpend Hi)
      as (p1 & p2 & S1 & R1 & S2 & R2 & St2).
    exists p1, p2. repeat split; try done.
    assert (reachable lookup n p2) as Hr2.
    { eapply reachable_step; [|exact S2]. by eapply reachable_step. }
    destruct (Hbound p2 Hr2) as (E2 & _). lia. }
  split; [by apply Hbound|]. split; [|split].
  - intros acts k Hacts. rewrite <- (take_drop k acts) in Hacts.
    destruct (steps_app _ _ _ _ _ Hacts) as (q & Hq & _).
    exists q. split; [done|]. apply Hbound. by exists (take k acts).
  - intros Hone Hq. split; [|by apply Hnext].
    intros Hpub.
    by apply (saturated_when_quiescent lookup n p Hr (fun m => Hne m Hone) Hq).
  - intros -> Hpub Hone Hq. split.
    + intros Hfin.
      destruct (saturated_when_quiescent lookup 2 p Hr (fun m => Hne m Hone) Hq)
        as [Hrun Hst]; [lia|].
      split; [done|]. split; [lia|]. intros i Hi.
      destruct (Hnext Hone Hq ltac:(lia) i Hi)
        as (p1 & p2 & S1 & R1 & S2 & R2 & St2 & _).
      exists p1, p2. repeat split; try done; lia.
    + intros Hfin.
      destruct (saturated_when_quiescent lookup 2 p Hr (fun m => Hne m Hone) Hq)
        as [Hrun Hst]; lia.
Qed.

Lemma at_most_N_handlers_in_flight_witness :
  started after_publishing ≤ finished after_publishing + CONCURRENCY
  ∧ running after_publishing = 2
  ∧ started after_publishing = 2
  ∧ (∃ p1 p2,
       step (registered_handlers configured_registry) (Complete 0) after_publishing
         = Some p1
       ∧ step (registered_handlers configured_registry) (Claim 0) p1 = Some p2
       ∧ running p2 = 2
       ∧ started p2 = 3)
  ∧ running three_slots_busy = 3
  ∧ started three_slots_busy = 3 + finished three_slots_busy.
Proof.
  assert (∀ (q : Pool) (m : Message),
            published q = replicate (length (published q)) event →
            m ∈ published q →
            length (registered_handlers configured_registry (name m)) = 1) as Hone.
  { intros q m -> Hm. apply elem_of_replicate in Hm as [-> _]. reflexivity. }
  assert (reachable (registered_handlers configured_registry) CONCURRENCY
            after_publishing) as Hr.
  { by exists [Publish event; Publish event; Claim 0; Claim 1; Publish event]. }
  assert (reachable (registered_handlers configured_registry) 3 three_slots_busy)
    as Hr3.
  { by exists [Publish event; Claim 2; Publish event; Publish event; Claim 0;
               Publish event; Claim 1]. }
  destruct (at_most_N_handlers_in_flight _ _ _ Hr) as ((_ & Hb & _) & _ & _ & H).
  destruct (at_most_N_handlers_in_flight _ _ _ Hr3) as (_ & _ & H3 & _).
  split; [exact Hb|].
  assert (∀ m, m ∈ published after_publishing →
               length (registered_handlers configured_registry (name m)) = 1)
    as Hone2 by (intros m; apply (Hone after_publishing m); reflexivity).
  assert (∀ m, m ∈ published three_slots_busy →
               length (registered_handlers configured_registry (name m)) = 1)
    as Hone3 by (intros m; apply (Hone three_slots_busy m); reflexivity).
  destruct (H eq_refl eq_refl Hone2 eq_refl) as [H0 _].
  destruct (H0 eq_refl) as (Hrun & Hst & Hnext).
  split; [done|]. split; [done|]. split.
  - destruct (Hnext 0 ltac:(lia)) as (p1 & p2 & S1 & _ & S2 & R2 & St2).
    by exists p1, p2.
  - destruct (H3 Hone3 eq_refl) as [Hsat _].
    apply Hsat. vm_compute. lia.
Defined.

(** Claim C2.  For a message being handled in slot [i]: when its last
    handler completes, all its handlers were invoked and the message is
    deleted, the transport depth drops by one and nothing is put back for
    delivery; when the running handler fails, by a throw or by a rejection
    alike, the message is returned to the transport, whose depth stays; and
    a message whose only handler fails on the first delivery and completes
    on the next has its handler invoked twice and is then deleted. *)
Theorem deleted_on_success_returned_on_failure
    (lookup : MessageName → list Handler) (n : nat) (p : Pool)
    (i : nat) (h : Handle) (c : Handler) (r : list Handler) :
  reachable lookup n p →
  slots p !! i = Some (Executing h c r) →
  (r = [] →
     invoked_for (receipt h) p = lookup (name (message h))
     ∧ ∃ p', step lookup (Complete i) p = Some p'
             ∧ depth (transport p') + 1 = depth (transport p)
             ∧ pending (transport p') = pending (transport p)
             ∧ (h ∉ claimed (transport p'))
             ∧ deleted p' = S (deleted p)
             ∧ returned p' = returned p)
  ∧ (∀ k, ∃ p', step lookup (Fail i k) p = Some p'
                ∧ step lookup (Fail i ThrownSync) p = Some p'
                ∧ step lookup (Fail i RejectedAsync) p = Some p'
                ∧ depth (transport p') = depth (transport p)
                ∧ pending (transport p') = pending (transport p) ++ [message h]
                ∧ (h ∉ claimed (transport p'))
                ∧ returned p' = S (returned p)
                ∧ deleted p' = deleted p)
  ∧ (lookup (name (message h)) = [c] →
     pending (transport p) = [] →
     ∀ k j, j = i ∨ slots p !! j = Some Idle →
       ∃ p1 p2 p3,
         step lookup (Fail i k) p = Some p1
         ∧ step lookup (Claim j) p1 = Some p2
         ∧ step lookup (Complete j) p2 = Some p3
         ∧ invoked p3 = invoked p ++ [(next_receipt (transport p), c)]
         ∧ c ∈ invoked_for (receipt h) p3
         ∧ c ∈ invoked_for (next_receipt (transport p)) p3
         ∧ receipt h ≠ next_receipt (transport p)
         ∧ depth (transport p3) + 1 = depth (transport p)
         ∧ pending (transport p3) = []
         ∧ deleted p3 = S (deleted p)).
Proof.
  intros Hr Hi. pose proof (inv_reachable _ _ _ Hr) as Hp.
  split; [|split].
  - intros ->. split.
    + destruct (inv_order _ _ _ Hp _ _ _ _ Hi) as (before & -> & ->). done.
    + destruct (complete_last lookup n p i h c Hr Hi)
        as (p' & S1 & D1 & P1 & C1 & Del1 & Ret1 & _).
      by exists p'.
  - intros k.
    destruct (fail_returns lookup n p i h c r k Hr Hi)
      as (p' & S1 & D1 & P1 & _ & _ & C1 & Ret1 & Del1 & _).
    exists p'. by repeat split.
  - intros Hlook Hpend k j Hj.
    assert (r = []) as ->.
    { destruct (inv_order _ _ _ Hp _ _ _ _ Hi) as (before & E & _).
      rewrite Hlook in E. destruct before as [|x before]; [by injection E|].
      injection E as _ E. by destruct before. }
    by apply (retry_then_delete lookup n).
Qed.

Lemma deleted_on_success_returned_on_failure_witness :
  ∃ p3, steps (registered_handlers configured_registry)
          [Fail 0 ThrownSync; Claim 0; Complete 0] first_delivery = Some p3
        ∧ started p3 = 2
        ∧ depth (transport p3) = 0.
Proof.
  assert (reachable (registered_handlers configured_registry) 1 first_delivery) as Hr.
  { by exists [Publish event; Claim 0]. }
  destruct (deleted_on_success_returned_on_failure
              (registered_handlers configured_registry) 1 first_delivery 0
              {| receipt := 0; message := event |} handler [] Hr eq_refl)
    as (_ & _ & H).
  destruct (H eq_refl eq_refl ThrownSync 0 (or_introl eq_refl))
    as (p1 & p2 & p3 & S1 & S2 & S3 & I3 & _ & _ & _ & D3 & _).
  exists p3. split; [|split].
  - cbn [steps]. by rewrite S1, S2, S3.
  - unfold started. by rewrite I3.
  - change (depth (transport first_delivery)) with 1 in D3. lia.
Defined.




(** ** Service bus *)

Import ServiceBus.

Lemma start_cases (n : nat) (b : Bus) :
  (state b = Stopped ∧ ∃ b', start n b = inr b' ∧ state b' = Starting)
  ∨ (state b ≠ Stopped ∧ start n b = inl (AlreadyStarted (state b))).
Proof.
  unfold start. destruct (state b) eqn:E; [left|right..]; try done.
  split; [done|]. by eexists.
Qed.

Lemma stop_cases (b : Bus) :
  (state b = Started ∧ ∃ b', stop b = inr b' ∧ state b' = Stopping)
  ∨ (state b ≠ Started ∧ stop b = inl (NotStarted (state b))).
Proof.
  unfold stop. destruct (state b) eqn:E; try (right; done).
  left. split; [done|]. by eexists.
Qed.

(** Claim C7.  [start()] in state [Starting], [Started] or [Stopping] is a
    fatal error, and so is [stop()] in state [Stopped]; [start()] succeeds
    exactly from [Stopped] and [stop()] exactly from [Started]. *)
Theorem start_only_from_stopped_stop_only_from_started (n : nat) (b : Bus) :
  (state b ∈ [Starting; Started; Stopping] →
     start n b = inl (AlreadyStarted (state b)))
  ∧ (state b = Stopped → stop b = inl (NotStarted Stopped))
  ∧ ((∃ b', start n b = inr b') ↔ state b = Stopped)
  ∧ ((∃ b', stop b = inr b') ↔ state b = Started).
Proof.
  repeat split.
  - intros Hin. destruct (start_cases n b) as [[Hs _]|[_ ?]]; [|done].
    rewrite Hs in Hin.
    repeat (apply elem_of_cons in Hin as [?|Hin]; [done|]).
    by apply not_elem_of_nil in Hin.
  - intros Hs. destruct (stop_cases b) as [[Hs' _]|[_ H]]; [congruence|].
    by rewrite H, Hs.
  - intros [b' H]. destruct (start_cases n b) as [[Hs _]|[_ H']]; [done|congruence].
  - intros Hs. destruct (start_cases n b) as [(_ & b' & H & _)|[? _]]; [by eexists|done].
  - intros [b' H]. destruct (stop_cases b) as [[Hs _]|[_ H']]; [done|congruence].
  - intros Hs. destruct (stop_cases b) as [(_ & b' & H & _)|[? _]]; [by eexists|done].
Qed.

Lemma start_only_from_stopped_stop_only_from_started_witness :
  start 2 (start_resume (with_state Starting configured))
    = inl (AlreadyStarted Started)
  ∧ stop configured = inl (NotStarted Stopped).
Proof.
  pose proof (start_only_from_stopped_stop_only_from_started 2
                (start_resume (with_state Starting configured))) as (H1 & _).
  pose proof (start_only_from_stopped_stop_only_from_started 2 configured)
    as (_ & H2 & _).
  split; [apply H1; compute_done | apply H2; reflexivity].
Defined.










